(** * Cover-art hunter: a shallow embedding of [cover_art_hunter.py]

    The pipeline of [src/cover_art_hunter/cover_art_hunter.py] is embedded
    function by function, under the names of the source.

    - Coroutines are computations in a small state-and-exception monad [M]
      over a [world]: the local files and a chronological trace of the
      observable actions (requests, sleeps, log records, file accesses).
    - The collaborators outside the program are the fields of the class
      [External]: the HTTP session, the JSON and image decoders, the image
      encoder and the clock.  The network is a function of the request and
      of the number of the attempt, so that a retried call can meet a
      different answer at each attempt.
    - tenacity's [@retry] is the loop [retrying], with the parameters of the
      decorator.
    - Tasks launched together ([tqdm.as_completed]) are awaited in a
      completion order chosen by a [scheduler].  A task that only talks to
      the network runs to its end once it is awaited.  The tasks of the
      image stage also read and write the cache, so their two parts are
      kept apart: the event loop runs every task up to its first
      suspension before any response is handled ([launch]), and the rest
      of each task runs in completion order ([resume]).
      [asyncio.gather] returns the results in the order of its arguments.
    - The JSON objects of the two services are records with optional fields,
      typed as the services document them; a dictionary that is [{}] or
      lacks a key has [None] there.  The dictionaries the program builds
      are records; [{}] as a result is [None].
    - Progress-bar calls only drive the terminal display and are left out;
      [os.makedirs] and [json.dump] are recorded in the trace.
    - The world holds regular files only.  Directories are not modelled:
      a path that is tested or opened is taken to name a file or nothing,
      and a directory that is written into is taken to exist. *)

From Stdlib Require Import ZArith List String Ascii Bool Lia Permutation Sorted.
From Stdlib Require Import Arith PeanoNat.
Import ListNotations.

Local Open Scope string_scope.
Local Open Scope Z_scope.
Local Open Scope list_scope.

(* ------------------------------------------------------------------ *)
(** ** Data model *)

Definition bytes := list Byte.byte.

(** Exceptions raised by the network client ([aiohttp], [asyncio]). *)
Inductive net_exn : Type :=
| ClientConnectionError
| ServerTimeoutError
| ClientPayloadError.

(** The Python exceptions the program can meet.  [RetryError] is
    tenacity's own exception class. *)
Inductive exn : Type :=
| NetError (e : net_exn)
| JSONDecodeError
| UnidentifiedImageError
| OSError
| RetryError.

(** Values of the [params] dictionary of a GET request. *)
Inductive pval : Type :=
| PStr (s : string)
| PInt (z : Z).

Definition params := list (string * pval).

(** A release of a release group: [release["id"]], [release.get("status")]. *)
Record Release : Type := mkRelease {
  release_id : string;
  release_status : option string
}.

(** A release group: [rg.get("primary-type")], [rg.get("releases", [])]. *)
Record ReleaseGroup : Type := mkReleaseGroup {
  rg_id : string;
  primary_type : option string;
  releases : option (list Release)
}.

(** An entry of the art archive's [images] array;
    a key that is absent is [None]. *)
Record CoverImage : Type := mkCoverImage {
  image : option string;
  types : option (list string)
}.

(** The JSON object a service answers, restricted to the keys the program
    reads and typed as the services document them; a key that is absent is
    [None], and [{}] has no key at all. *)
Record JsonObject : Type := mkJson {
  count : option Z;
  release_groups : option (list ReleaseGroup);
  images : option (list CoverImage)
}.

Definition empty_dict : JsonObject := mkJson None None None.

(** [dict.get(key, default)]. *)
Definition get {A : Type} (field : option A) (default : A) : A :=
  match field with
  | Some v => v
  | None => default
  end.

(** The dictionary [fetch_image_details] builds for an image. *)
Record ImageDetail : Type := mkImageDetail {
  url : string;
  dimensions : Z * Z;
  resolution : Z;
  local_path : option string
}.

(** An entry of the batch summary. *)
Record SummaryEntry : Type := mkSummaryEntry {
  summary_artist : string;
  summary_album : string;
  highest_resolution_image : ImageDetail
}.

(** The per-album metadata written next to the images. *)
Record AlbumMetadata : Type := mkAlbumMetadata {
  meta_artist : string;
  meta_album : string;
  meta_release_type : option string;
  meta_status : option string;
  cover_art_images : list ImageDetail
}.

(** An entry of [config["artists_albums"]]. *)
Record ArtistAlbums : Type := mkArtistAlbums {
  artist_name : string;
  albums : list string
}.

(** The configuration, with the defaults of [config.get] applied. *)
Record Config : Type := mkConfig {
  artists_albums : list ArtistAlbums;
  cfg_release_type : option string;
  cfg_status : option string;
  save_images : bool;
  output_dir : string;
  cfg_skip_existing : bool
}.

(** What one attempt of [session.get] meets: an exception, or a response
    with its status and body. *)
Inductive outcome : Type :=
| Raised (e : net_exn)
| Response (status : Z) (body : bytes).

(** Messages of the logger, kept structured. *)
Inductive log_msg : Type :=
| FailedFetchStatus (u : string) (status : Z)
| FailedImageDetails (u : string) (e : exn)
| FailedReleaseGroupsAfterRetries (e : exn)
| NoReleaseGroupFound (artist album : string)
| NoCoverArtFound (artist album : string)
| OutputSaved (path : string).

Inductive level : Type := INFO | WARNING | ERROR.

(** Data handed to [json.dump]. *)
Inductive dumped : Type :=
| DumpMetadata (m : AlbumMetadata)
| DumpSummary (s : list SummaryEntry)
| DumpConfig (c : Config).

(** Observable actions, in the order they happen.  [EvGet] carries the
    number of the attempt (tenacity's [attempt_number]) that issued it. *)
Inductive event : Type :=
| EvGet (u : string) (p : params) (attempt : nat)
| EvSleep (seconds : Z)
| EvLog (l : level) (m : log_msg)
| EvExists (path : string)
| EvOpenImage (path : string)
| EvSaveImage (path : string)
| EvMakedirs (path : string)
| EvWriteJson (path : string) (d : dumped).

(** The local file system (most recent write first) and the trace. *)
Record world : Type := mkWorld {
  files : list (string * bytes);
  trace : list event
}.

(** The collaborators outside the program.  [session_get u p n] is what the
    [n]-th attempt of a (retried) call meets when it requests [u] with
    parameters [p]; [response_json] and [Image_open] decode a body ([None]:
    the decoder raises); [Image_save] is the file [image.save] writes for an
    image opened from the given bytes ([None]: it raises), and
    [Image_save_leaves b old] is what a save that raises leaves at its
    path, where [old] was before: [old] itself when the save fails before
    it opens the target, a truncated or partly written file when the
    encoder fails, nothing when the file the save had created is removed;
    whether a save raises is taken to depend on the image alone, not on
    the path, which is taken to name a file that can be written;
    [strftime_now] is the formatted clock. *)
Class External : Type := {
  session_get : string -> params -> nat -> outcome;
  response_json : bytes -> option JsonObject;
  Image_open : bytes -> option (Z * Z);
  Image_save : bytes -> option bytes;
  Image_save_leaves : bytes -> option bytes -> option bytes;
  strftime_now : string
}.

(* ------------------------------------------------------------------ *)
(** ** The monad of coroutines *)

Inductive result (A : Type) : Type :=
| Ok (a : A)
| Raise (e : exn).
Arguments Ok {A} a.
Arguments Raise {A} e.

Definition M (A : Type) : Type := world -> result A * world.

Definition ret {A : Type} (a : A) : M A := fun w => (Ok a, w).

Definition bind {A B : Type} (m : M A) (k : A -> M B) : M B :=
  fun w =>
    match m w with
    | (Ok a, w') => k a w'
    | (Raise e, w') => (Raise e, w')
    end.

Definition raise {A : Type} (e : exn) : M A := fun w => (Raise e, w).

(** [try: body except <handles> as e: handler e]. *)
Definition try_except {A : Type} (body : M A) (handles : exn -> bool)
    (handler : exn -> M A) : M A :=
  fun w =>
    match body w with
    | (Ok a, w') => (Ok a, w')
    | (Raise e, w') => if handles e then handler e w' else (Raise e, w')
    end.

Declare Scope coro_scope.
Delimit Scope coro_scope with coro.
Notation "x <- m ;; k" := (bind m (fun x => k))
  (at level 61, m at next level, right associativity) : coro_scope.
Notation "m ;;; k" := (bind m (fun _ => k))
  (at level 61, right associativity) : coro_scope.
Local Open Scope coro_scope.

(** The world once the events [evs] have happened. *)
Definition record (w : world) (evs : list event) : world :=
  mkWorld (files w) (trace w ++ evs).

Definition emit (e : event) : M unit :=
  fun w => (Ok tt, record w [e]).

Definition log (l : level) (m : log_msg) : M unit := emit (EvLog l m).

(** The world before anything has happened. *)
Definition w0 : world := mkWorld [] [].

(** The value of a computation run from [w0], and the events it adds. *)
Definition run {A : Type} (m : M A) : result A * list event :=
  (fst (m w0), trace (snd (m w0))).

(** [for x in xs: r = await f(x); rs.append(r)]. *)
Fixpoint for_each {A B : Type} (f : A -> M B) (xs : list A) : M (list B) :=
  match xs with
  | [] => ret []
  | x :: xs' =>
      r <- f x ;;
      rs <- for_each f xs' ;;
      ret (r :: rs)
  end.

(* ------------------------------------------------------------------ *)
(** ** tenacity: [@retry(stop=..., wait=..., reraise=...)] *)

(** [wait_exponential(multiplier, min, max)] with base 2:
    [max(max(0, min), min(multiplier * 2 ** (attempt_number - 1), max))]. *)
Definition wait_exponential (multiplier min max : Z) (attempt_number : nat) : Z :=
  Z.max (Z.max 0 min)
        (Z.min (multiplier * 2 ^ (Z.of_nat attempt_number - 1)) max).

(** The retry loop with [stop=stop_after_attempt(n)]: [left] is the number
    of attempts that remain after this one, [n - attempt_number].  Every
    exception of the wrapped function is retried (tenacity's default
    [retry_if_exception_type()]); a value is returned at once.  Between two
    attempts the loop sleeps [wait attempt_number] seconds.  When the loop
    stops, [reraise=True] raises the exception of the last attempt, and
    [reraise=False] raises [RetryError].  The wrapped function is told the
    number of the attempt only to ask the network model for its answer. *)
Fixpoint retrying {A : Type} (wait : nat -> Z) (reraise : bool)
    (left attempt_number : nat) (fn : nat -> M A) : M A :=
  fun w =>
    match fn attempt_number w with
    | (Ok a, w') => (Ok a, w')
    | (Raise e, w') =>
        match left with
        | O => (Raise (if reraise then e else RetryError), w')
        | S left' =>
            match emit (EvSleep (wait attempt_number)) w' with
            | (_, w'') => retrying wait reraise left' (S attempt_number) fn w''
            end
        end
    end.

(** The decorator both fetch functions carry:
    [@retry(stop=stop_after_attempt(5),
            wait=wait_exponential(multiplier=1, min=1, max=60),
            reraise=True)]. *)
Definition max_attempts : nat := 5.

Definition retry_wait : nat -> Z := wait_exponential 1 1 60.

Definition retry {A : Type} (fn : nat -> M A) : M A :=
  retrying retry_wait true (max_attempts - 1) 1 fn.

(** The trace of [k] failed attempts at a request, the first one numbered
    [a], each followed by the wait before the next attempt. *)
Definition failed_attempts (u : string) (p : params) (a k : nat) : list event :=
  flat_map (fun n => [EvGet u p n; EvSleep (retry_wait n)]) (seq a k).

(* ------------------------------------------------------------------ *)
(** ** os.path *)

Fixpoint has_slash (p : string) : bool :=
  match p with
  | EmptyString => false
  | String c rest => (Ascii.eqb c "/"%char || has_slash rest)%bool
  end.

(** [os.path.basename]: what follows the last slash. *)
Fixpoint basename (p : string) : string :=
  match p with
  | EmptyString => EmptyString
  | String _ rest => if has_slash p then basename rest else p
  end.

Definition startswith_slash (p : string) : bool :=
  match p with
  | String c _ => Ascii.eqb c "/"%char
  | EmptyString => false
  end.

Fixpoint endswith_slash (p : string) : bool :=
  match p with
  | EmptyString => false
  | String c EmptyString => Ascii.eqb c "/"%char
  | String _ rest => endswith_slash rest
  end.

(** [os.path.join(a, b)] on POSIX. *)
Definition path_join (a b : string) : string :=
  if startswith_slash b then b
  else if (String.eqb a "" || endswith_slash a)%bool then (a ++ b)%string
  else (a ++ "/" ++ b)%string.

(** Truth value of an optional string: [None] and [""] are false. *)
Definition truthy (s : option string) : bool :=
  match s with
  | Some v => negb (String.eqb v "")
  | None => false
  end.

(** The file at a path, if there is one. *)
Fixpoint lookup (path : string) (fs : list (string * bytes)) : option bytes :=
  match fs with
  | [] => None
  | (p, b) :: fs' => if String.eqb p path then Some b else lookup path fs'
  end.

(** The files once the one at [path] is gone. *)
Definition remove_file (path : string) (fs : list (string * bytes))
    : list (string * bytes) :=
  filter (fun entry => negb (String.eqb (fst entry) path)) fs.

(** The files once [path] holds [content], or nothing for [None]. *)
Definition put_file (path : string) (content : option bytes)
    (fs : list (string * bytes)) : list (string * bytes) :=
  match content with
  | Some b => (path, b) :: fs
  | None => remove_file path fs
  end.

(** [os.path.exists(path)]. *)
Definition path_exists (path : string) : M bool :=
  fun w =>
    (Ok (match lookup path (files w) with Some _ => true | None => false end),
     record w [EvExists path]).

(** [p[:p.rfind('/') + 1]]. *)
Fixpoint upto_last_slash (p : string) : string :=
  match p with
  | EmptyString => EmptyString
  | String c rest => if has_slash p then String c (upto_last_slash rest) else EmptyString
  end.

(** [head.rstrip('/')]. *)
Fixpoint rstrip_slash (p : string) : string :=
  match p with
  | EmptyString => EmptyString
  | String c rest =>
      match rstrip_slash rest with
      | EmptyString => if Ascii.eqb c "/"%char then EmptyString else String c EmptyString
      | r => String c r
      end
  end.

(** [os.path.dirname] on POSIX: a head made of slashes only is kept. *)
Definition dirname (p : string) : string :=
  let head := upto_last_slash p in
  match rstrip_slash head with
  | EmptyString => head
  | stripped => stripped
  end.

(* ------------------------------------------------------------------ *)
(** ** Built-ins *)

(** [range(start, stop, step)] for a positive [step]. *)
Definition range (start stop step : Z) : list Z :=
  map (fun i => start + Z.of_nat i * step)
      (seq 0 (Z.to_nat ((stop - start + step - 1) / step))).

Definition option_string_eqb (a b : option string) : bool :=
  match a, b with
  | Some x, Some y => String.eqb x y
  | None, None => true
  | _, _ => false
  end.

(** [x in xs] on a list of strings. *)
Definition contains (x : string) (xs : list string) : bool :=
  existsb (String.eqb x) xs.

(** The stable insertion behind [sorted(..., key=resolution, reverse=True)]:
    an element goes in front of the first one whose key is not larger, so
    equal keys keep the order of the input. *)
Fixpoint insert_desc (d : ImageDetail) (l : list ImageDetail) : list ImageDetail :=
  match l with
  | [] => [d]
  | x :: l' =>
      if resolution x <=? resolution d then d :: x :: l'
      else x :: insert_desc d l'
  end.

(** [sorted(l, key=lambda x: x["resolution"], reverse=True)]: Python's sort
    is stable, also with [reverse=True]. *)
Fixpoint sorted_by_resolution_desc (l : list ImageDetail) : list ImageDetail :=
  match l with
  | [] => []
  | d :: l' => insert_desc d (sorted_by_resolution_desc l')
  end.


(** [[detail for detail in image_details if detail]]: [{}] is false. *)
Definition valid_details (image_details : list (option ImageDetail))
    : list ImageDetail :=
  flat_map (fun detail => match detail with Some d => [d] | None => [] end)
           image_details.

(* ------------------------------------------------------------------ *)
(** ** Completion order of concurrent tasks *)

(** The order in which the event loop completes [n] tasks launched
    together: indices into the list of tasks. *)
Definition scheduler := nat -> list nat.

(** A scheduler completes every task exactly once. *)
Definition fair (s : scheduler) : Prop :=
  forall n, Permutation (s n) (seq 0 n).

Definition launch_order : scheduler := fun n => seq 0 n.

Definition reverse_order : scheduler := fun n => rev (seq 0 n).

(** The tasks in the order they complete. *)
Definition completion {A : Type} (order : list nat) (tasks : list A) : list A :=
  flat_map (fun i => match nth_error tasks i with Some t => [t] | None => [] end)
           order.

(** [for task in tqdm.as_completed(tasks): result = await task;
    results.append(result)]: the tasks are awaited in completion order,
    each running to its end, and the first exception leaves the loop.
    This is the whole of a stage whose tasks only talk to the network;
    the image stage launches its tasks first (see [find_image_details]). *)
Definition as_completed {A : Type} (sched : scheduler) (tasks : list (M A))
    : M (list A) :=
  for_each (fun task => task) (completion (sched (List.length tasks)) tasks).

(** [await asyncio.gather] over the tasks: the results come back in the
    order of the arguments, whatever the order of completion, and the first
    exception is raised to the caller.  The tasks are run in that order. *)
Definition gather {A : Type} (tasks : list (M A)) : M (list A) :=
  for_each (fun task => task) tasks.

(** The completion orders of the three fan-out stages of one album. *)
Record Schedulers : Type := mkSchedulers {
  pages_order : scheduler;
  art_order : scheduler;
  images_order : scheduler
}.

Section Pipeline.

Context {E : External}.

(** [Image.open(local_path)] followed by [image.size]. *)
Definition open_local_image (path : string) : M (Z * Z) :=
  fun w =>
    let w' := record w [EvOpenImage path] in
    match lookup path (files w) with
    | Some b =>
        match Image_open b with
        | Some size => (Ok size, w')
        | None => (Raise UnidentifiedImageError, w')
        end
    | None => (Raise OSError, w')
    end.

(** [image.save(local_path)] for an image opened from [b].  A save that
    raises may have opened the target already: the file at the path is
    then what [Image_save_leaves] says. *)
Definition save_image (b : bytes) (path : string) : M unit :=
  fun w =>
    let t := trace w ++ [EvSaveImage path] in
    match Image_save b with
    | Some f => (Ok tt, mkWorld ((path, f) :: files w) t)
    | None =>
        (Raise OSError,
         mkWorld (put_file path (Image_save_leaves b (lookup path (files w)))
                           (files w))
                 t)
    end.

(** [async with session.get(url, params=params) as response]. *)
Definition http_get (u : string) (p : params) (attempt : nat) : M (Z * bytes) :=
  fun w =>
    let w' := record w [EvGet u p attempt] in
    match session_get u p attempt with
    | Raised e => (Raise (NetError e), w')
    | Response status body => (Ok (status, body), w')
    end.

(** [await response.json()]. *)
Definition json_of (body : bytes) : M JsonObject :=
  match response_json body with
  | Some j => ret j
  | None => raise JSONDecodeError
  end.

(* ------------------------------------------------------------------ *)
(** ** fetch_data *)

Definition fetch_data_body (u : string) (p : params) (attempt : nat)
    : M JsonObject :=
  response <- http_get u p attempt ;;
  if fst response =? 200 then json_of (snd response)
  else
    log WARNING (FailedFetchStatus u (fst response)) ;;;
    ret empty_dict.

Definition fetch_data (u : string) (p : params) : M JsonObject :=
  retry (fetch_data_body u p).

(* ------------------------------------------------------------------ *)
(** ** fetch_image_details *)

(** [skip_existing and os.path.exists(local_path)]. *)
Definition skip_and_exists (skip_existing : bool) (path : string) : M bool :=
  if skip_existing then path_exists path else ret false.

Definition image_detail (u : string) (size : Z * Z) (lp : option string)
    : ImageDetail :=
  mkImageDetail u size (fst size * snd size) lp.

(** The [try] block and its [except Exception] handler. *)
Definition fetch_image_details_try (u : string) (lp : option string)
    (skip_existing : bool) (attempt : nat) : M (option ImageDetail) :=
  try_except
    (response <- http_get u [] attempt ;;
     match Image_open (snd response) with
     | None => raise UnidentifiedImageError
     | Some size =>
         match lp with
         | Some path =>
             hit <- skip_and_exists skip_existing path ;;
             if negb hit then save_image (snd response) path else ret tt
         | None => ret tt
         end ;;;
         ret (Some (image_detail u size lp))
     end)
    (fun _ => true)
    (fun e => log ERROR (FailedImageDetails u e) ;;; ret None).

Definition fetch_image_details_body (u : string) (save_path : option string)
    (skip_existing : bool) (attempt : nat) : M (option ImageDetail) :=
  if truthy save_path then
    let path := path_join (get save_path "") (basename u) in
    hit <- skip_and_exists skip_existing path ;;
    if hit then
      size <- open_local_image path ;;
      ret (Some (image_detail u size (Some path)))
    else fetch_image_details_try u (Some path) skip_existing attempt
  else fetch_image_details_try u None skip_existing attempt.

Definition fetch_image_details (u : string) (save_path : option string)
    (skip_existing : bool) : M (option ImageDetail) :=
  retry (fetch_image_details_body u save_path skip_existing).

(* ------------------------------------------------------------------ *)
(** ** Release resolver *)

Definition is_RetryError (e : exn) : bool :=
  match e with
  | RetryError => true
  | _ => false
  end.

Definition release_group_url : string :=
  "https://musicbrainz.org/ws/2/release-group/".

Definition release_group_params (artist album : string) (offset limit : Z)
    : params :=
  [("query", PStr ("artist:" ++ artist ++ " AND releasegroup:" ++ album)%string);
   ("fmt", PStr "json");
   ("limit", PInt limit);
   ("offset", PInt offset)].

Definition fetch_release_groups (artist album : string) (offset limit : Z)
    : M JsonObject :=
  try_except
    (fetch_data release_group_url (release_group_params artist album offset limit))
    is_RetryError
    (fun e => log ERROR (FailedReleaseGroupsAfterRetries e) ;;; ret empty_dict).

Definition get_release_groups (sched : scheduler) (artist album : string)
    : M (list ReleaseGroup) :=
  let limit := 100 in
  initial_data <- fetch_release_groups artist album 0 limit ;;
  let total_count := get (count initial_data) 0 in
  let first_page := get (release_groups initial_data) [] in
  let tasks :=
    map (fun offset => fetch_release_groups artist album offset limit)
        (range limit total_count limit) in
  results <- as_completed sched tasks ;;
  ret (first_page
       ++ flat_map (fun result => get (release_groups result) []) results).

(* ------------------------------------------------------------------ *)
(** ** Art locator *)

Definition cover_art_url (rid : string) : string :=
  ("https://coverartarchive.org/release/" ++ rid)%string.

(** ["image" in image and image.get("types") and "Front" in image["types"]]. *)
Definition front_urls (imgs : list CoverImage) : list string :=
  flat_map
    (fun img =>
       match image img, types img with
       | Some u, Some (t :: ts) => if contains "Front" (t :: ts) then [u] else []
       | _, _ => []
       end)
    imgs.

Definition fetch_cover_art_urls (rid : string) : M (string * list string) :=
  try_except
    (data <- fetch_data (cover_art_url rid) [] ;;
     ret (rid, front_urls (get (images data) [])))
    is_RetryError
    (fun _ => ret (rid, [])).

Definition get_cover_art_urls (sched : scheduler) (release_ids : list string)
    : M (list (string * list string)) :=
  let tasks := map fetch_cover_art_urls release_ids in
  as_completed sched tasks.

(* ------------------------------------------------------------------ *)
(** ** Image materializer and ranking *)

(** Where a task of [fetch_image_details] stands when it first gives up
    control: it has returned from the cache, or its first attempt has
    raised and tenacity sleeps before the second one, or it waits for
    the response to its request. *)
Inductive started : Type :=
| Returned (r : option ImageDetail)
| Retrying
| Requested (lp : option string).

(** [fetch_image_details] up to its first suspension: the test for the
    cached file and, on a hit, the measure of that file.  Nothing is
    awaited before [session.get] or before the sleep of the retry loop. *)
Definition launch (u : string) (save_path : option string)
    (skip_existing : bool) : M started :=
  if truthy save_path then
    let path := path_join (get save_path "") (basename u) in
    hit <- skip_and_exists skip_existing path ;;
    if hit then
      try_except
        (size <- open_local_image path ;;
         ret (Returned (Some (image_detail u size (Some path)))))
        (fun _ => true)
        (fun _ => ret Retrying)
    else ret (Requested (Some path))
  else ret (Requested None).

(** The rest of the task: nothing for a task that has returned; the sleep
    and the attempts from the second one on for a task whose first attempt
    raised; the [try] block for a task that waits for its response. *)
Definition resume (u : string) (save_path : option string)
    (skip_existing : bool) (s : started) : M (option ImageDetail) :=
  match s with
  | Returned r => ret r
  | Retrying =>
      emit (EvSleep (retry_wait 1)) ;;;
      retrying retry_wait true (max_attempts - 2) 2
               (fetch_image_details_body u save_path skip_existing)
  | Requested lp => fetch_image_details_try u lp skip_existing 1
  end.

(** The tasks are created together and the loop over [tqdm.as_completed]
    gives control to the event loop: every task is run up to its first
    suspension, then the tasks go on in completion order. *)
Definition find_image_details (sched : scheduler) (urls : list string)
    (save_path : option string) (skip_existing : bool)
    : M (list ImageDetail) :=
  launched <- for_each (fun u => launch u save_path skip_existing) urls ;;
  let tasks :=
    map (fun task => resume (fst task) save_path skip_existing (snd task))
        (combine urls launched) in
  image_details <- as_completed sched tasks ;;
  let valid_image_details := valid_details image_details in
  ret (sorted_by_resolution_desc valid_image_details).

Definition save_output_to_file (data : dumped) (filepath : string) : M string :=
  emit (EvMakedirs (dirname filepath)) ;;;
  emit (EvWriteJson filepath data) ;;;
  log INFO (OutputSaved filepath) ;;;
  ret filepath.

(* ------------------------------------------------------------------ *)
(** ** One album *)

Definition filter_release_type (release_type : option string)
    (rgs : list ReleaseGroup) : list ReleaseGroup :=
  if truthy release_type then
    filter (fun rg => option_string_eqb (primary_type rg) release_type) rgs
  else rgs.

Definition release_ids_of (status : option string) (rgs : list ReleaseGroup)
    : list string :=
  flat_map
    (fun release_group =>
       flat_map
         (fun release =>
            if (negb (truthy status)
                || option_string_eqb (release_status release) status)%bool
            then [release_id release] else [])
         (get (releases release_group) []))
    rgs.

Definition all_urls (cover_art_results : list (string * list string))
    : list string :=
  flat_map snd cover_art_results.

(** [sorted_image_details[0] if sorted_image_details else {}]. *)
Definition head_or_empty (sorted_image_details : list ImageDetail)
    : option ImageDetail :=
  match sorted_image_details with
  | d :: _ => Some d
  | [] => None
  end.

Definition process_artist_album (scheds : Schedulers) (artist album : string)
    (release_type status : option string) (save_imgs : bool)
    (out_dir : string) (skip_existing : bool) : M (option ImageDetail) :=
  found <- get_release_groups (pages_order scheds) artist album ;;
  let rgs := filter_release_type release_type found in
  match rgs with
  | [] =>
      log ERROR (NoReleaseGroupFound artist album) ;;;
      ret None
  | _ :: _ =>
      let release_ids := release_ids_of status rgs in
      cover_art_results <- get_cover_art_urls (art_order scheds) release_ids ;;
      let all_cover_art_urls := all_urls cover_art_results in
      match all_cover_art_urls with
      | [] =>
          log ERROR (NoCoverArtFound artist album) ;;;
          ret None
      | _ :: _ =>
          let artist_dir := path_join out_dir artist in
          let album_dir := path_join artist_dir album in
          emit (EvMakedirs album_dir) ;;;
          let save_path := if save_imgs then Some album_dir else None in
          sorted_image_details <-
            find_image_details (images_order scheds) all_cover_art_urls
                               save_path skip_existing ;;
          let metadata :=
            mkAlbumMetadata artist album release_type status
                            sorted_image_details in
          save_output_to_file (DumpMetadata metadata)
            (path_join album_dir (album ++ ".json")%string) ;;;
          ret (head_or_empty sorted_image_details)
      end
  end.

(* ------------------------------------------------------------------ *)
(** ** The batch *)

(** The tasks [main] creates: one per album of every artist entry, numbered
    in creation order. *)
Definition album_requests (entries : list ArtistAlbums) : list (string * string) :=
  flat_map (fun entry => map (fun album => (artist_name entry, album)) (albums entry))
           entries.

(** The loop over [zip(results, artists_albums)] that builds
    [highest_res_images]. *)
Definition aggregate (results : list (option ImageDetail))
    (entries : list ArtistAlbums) : list SummaryEntry :=
  flat_map
    (fun pair =>
       let highest_res_image := fst pair in
       let artist_album := snd pair in
       flat_map
         (fun album =>
            match highest_res_image with
            | Some d => [mkSummaryEntry (artist_name artist_album) album d]
            | None => []
            end)
         (albums artist_album))
    (combine results entries).

Definition first_artist (entries : list ArtistAlbums) : string :=
  match entries with
  | entry :: _ => artist_name entry
  | [] => ""
  end.

(** [main].  The summary goes through [save_output_to_file]; the
    configuration is written into [output_dir] without [os.makedirs], and
    like every write it is recorded as an event. *)
Definition main (scheds : nat -> Schedulers) (config : Config)
    (should_save_config : bool) : M unit :=
  let requests := album_requests (artists_albums config) in
  let tasks :=
    map (fun numbered =>
           process_artist_album (scheds (fst numbered))
             (fst (snd numbered)) (snd (snd numbered))
             (cfg_release_type config) (cfg_status config)
             (save_images config) (output_dir config)
             (cfg_skip_existing config))
        (combine (seq 0 (List.length requests)) requests) in
  results <- gather tasks ;;
  let highest_res_images := aggregate results (artists_albums config) in
  match highest_res_images with
  | _ :: _ =>
      let artist_dir :=
        path_join (output_dir config) (first_artist (artists_albums config)) in
      save_output_to_file (DumpSummary highest_res_images)
        (path_join artist_dir
           ("highest_resolution_images_" ++ strftime_now ++ ".json")%string) ;;;
      ret tt
  | [] => ret tt
  end ;;;
  if should_save_config then
    emit (EvWriteJson
            (path_join (output_dir config)
               ("config_" ++ strftime_now ++ ".json")%string)
            (DumpConfig config))
  else ret tt.

End Pipeline.

(* ------------------------------------------------------------------ *)
(** ** Observations on runs *)

(** The [local_path] of [fetch_image_details]: where the image of a URL is
    cached, if images are saved. *)
Definition cache_path (save_path : option string) (u : string) : option string :=
  if truthy save_path then Some (path_join (get save_path "") (basename u))
  else None.

Definition cache_paths (save_path : option string) (urls : list string)
    : list string :=
  flat_map (fun u => match cache_path save_path u with
                     | Some p => [p]
                     | None => []
                     end)
           urls.

(** The results of a list of awaited tasks: the values, or the first
    exception. *)
Fixpoint collect {A : Type} (rs : list (result A)) : result (list A) :=
  match rs with
  | [] => Ok []
  | Ok a :: rs' =>
      match collect rs' with
      | Ok l => Ok (a :: l)
      | Raise e => Raise e
      end
  | Raise e :: _ => Raise e
  end.


(** A computation that neither reads nor writes the world beyond adding
    events: its value and its events are those of its run from [w0]. *)
Definition oblivious {A : Type} (m : M A) : Prop :=
  forall w, m w = (fst (m w0), record w (trace (snd (m w0)))).

Definition value_of {A : Type} (m : M A) : result A := fst (m w0).

Definition events_of {A : Type} (m : M A) : list event := trace (snd (m w0)).

(** [ceil(n / d)] for a positive [d]. *)
Definition ceil_div (n d : Z) : Z := (n + d - 1) / d.

Definition offset_of (p : params) : list Z :=
  flat_map
    (fun kv =>
       match kv with
       | (k, PInt z) => if String.eqb k "offset" then [z] else []
       | _ => []
       end)
    p.

(** The offsets of the catalog pages asked for in a trace, one per call of
    [fetch_release_groups]: the first attempt of each. *)
Definition page_requests (t : list event) : list Z :=
  flat_map
    (fun ev =>
       match ev with
       | EvGet u p 1 => if String.eqb u release_group_url then offset_of p else []
       | _ => []
       end)
    t.

(** The events that are requests to the network. *)
Definition is_request (ev : event) : Prop :=
  match ev with
  | EvGet _ _ _ => True
  | _ => False
  end.

(** The number of requests in a trace. *)
Fixpoint requests (t : list event) : nat :=
  match t with
  | [] => 0
  | EvGet _ _ _ :: t' => S (requests t')
  | _ :: t' => requests t'
  end.

(** An event that is not a request of attempt [a] or earlier. *)
Definition after_attempt (a : nat) (ev : event) : Prop :=
  match ev with
  | EvGet _ _ n => (a < n)%nat
  | _ => True
  end.

Section Observations.

Context {E : External}.

(** What the catalog page at [offset] yields. *)
Definition page_result (artist album : string) (offset : Z) : result JsonObject :=
  value_of (fetch_release_groups artist album offset 100).

(** The release groups a page adds to the merged list: none when the page
    has no data. *)
Definition page_groups (artist album : string) (offset : Z) : list ReleaseGroup :=
  match page_result artist album offset with
  | Ok page => get (release_groups page) []
  | Raise _ => []
  end.

Definition contribution (artist album : string) (offset : Z) : nat :=
  List.length (page_groups artist album offset).

(** Where the task of a URL stands after [launch], read off the files. *)
Definition standing (save_path : option string) (skip_existing : bool)
    (fs : list (string * bytes)) (u : string) : started :=
  match cache_path save_path u with
  | Some path =>
      if skip_existing then
        match lookup path fs with
        | Some b =>
            match Image_open b with
            | Some size => Returned (Some (image_detail u size (Some path)))
            | None => Retrying
            end
        | None => Requested (Some path)
        end
      else Requested (Some path)
  | None => Requested None
  end.

(** What a task that waits for its response returns when it finds no file
    at its path after the download: the detail of the decoded image,
    unless there is a save path and the save raises. *)
Definition downloaded (u : string) (lp : option string) : option ImageDetail :=
  match session_get u [] 1 with
  | Raised _ => None
  | Response _ body =>
      match Image_open body with
      | None => None
      | Some size =>
          match lp, Image_save body with
          | Some _, None => None
          | _, _ => Some (image_detail u size lp)
          end
      end
  end.

(** What the task of a URL returns when no other task gets in its way. *)
Definition expected (save_path : option string) (skip_existing : bool)
    (fs : list (string * bytes)) (u : string) : option ImageDetail :=
  match standing save_path skip_existing fs u with
  | Returned r => r
  | Retrying => None
  | Requested lp => downloaded u lp
  end.

Definition is_Retrying (s : started) : bool :=
  match s with
  | Retrying => true
  | _ => false
  end.

(** The task of a URL in the image stage, once launched on the files
    [fs]. *)
Definition image_task (save_path : option string) (skip_existing : bool)
    (fs : list (string * bytes)) (u : string) : M (option ImageDetail) :=
  resume u save_path skip_existing (standing save_path skip_existing fs u).

(** Whatever the server sends for the URL and decodes as an image can be
    written. *)
Definition saved_when_decoded (u : string) : Prop :=
  forall status body size,
    session_get u [] 1 = Response status body ->
    Image_open body = Some size ->
    Image_save body <> None.

(** The files that were there at [fs] are still what they were. *)
Definition untouched (fs : list (string * bytes)) (w : world) : Prop :=
  forall q b, lookup q fs = Some b -> lookup q (files w) = Some b.

End Observations.

(** [count] is the total number of matches, so a page does not list more
    release groups than that. *)
Definition consistent_page (page : JsonObject) : Prop :=
  forall n, count page = Some n ->
            Z.of_nat (List.length (get (release_groups page) [])) <= n.

(** The batch summary in the words of the specification: one entry per
    (artist, album) request whose pipeline has a winner, in the order of
    the requests, each album with the winner of its own pipeline. *)
Definition summary_by_request (results : list (option ImageDetail))
    (entries : list ArtistAlbums) : list SummaryEntry :=
  flat_map
    (fun pair =>
       match fst pair with
       | Some d => [mkSummaryEntry (fst (snd pair)) (snd (snd pair)) d]
       | None => []
       end)
    (combine results (album_requests entries)).

(* ------------------------------------------------------------------ *)
(** ** Concrete services for examples *)

Definition pval_eqb (a b : pval) : bool :=
  match a, b with
  | PStr x, PStr y => String.eqb x y
  | PInt x, PInt y => Z.eqb x y
  | _, _ => false
  end.

Fixpoint params_eqb (a b : params) : bool :=
  match a, b with
  | [], [] => true
  | (k, v) :: a', (k', v') :: b' =>
      (String.eqb k k' && pval_eqb v v' && params_eqb a' b')%bool
  | _, _ => false
  end.

(** A route: the answers a URL with given parameters gives, by attempt.
    A request without a route is answered with status 503. *)
Definition route : Type := (string * params) * (nat -> outcome).

Fixpoint serve (routes : list route) (u : string) (p : params) (attempt : nat)
    : outcome :=
  match routes with
  | [] => Response 503 []
  | ((u', p'), answers) :: routes' =>
      if (String.eqb u u' && params_eqb p p')%bool then answers attempt
      else serve routes' u p attempt
  end.

Fixpoint bytes_eqb (a b : bytes) : bool :=
  match a, b with
  | [], [] => true
  | x :: a', y :: b' => (Byte.eqb x y && bytes_eqb a' b')%bool
  | _, _ => false
  end.

Fixpoint parse (bodies : list (bytes * JsonObject)) (b : bytes)
    : option JsonObject :=
  match bodies with
  | [] => None
  | (b', j) :: bodies' => if bytes_eqb b b' then Some j else parse bodies' b
  end.

(** A toy image format: two bytes, width then height. *)
Definition two_byte_size (b : bytes) : option (Z * Z) :=
  match b with
  | [w; h] => Some (Z.of_N (Byte.to_N w), Z.of_N (Byte.to_N h))
  | _ => None
  end.

(** What a save leaves when the encoder fails: an existing file is left
    truncated, and a file the save has created is removed. *)
Definition pil_leaves (b : bytes) (old : option bytes) : option bytes :=
  match old with
  | Some _ => Some []
  | None => None
  end.

Definition services (routes : list route) (bodies : list (bytes * JsonObject))
    : External :=
  {| session_get := serve routes;
     response_json := parse bodies;
     Image_open := two_byte_size;
     Image_save := fun b => Some b;
     Image_save_leaves := pil_leaves;
     strftime_now := "20240101_000000" |}.

Definition always (o : outcome) : nat -> outcome := fun _ => o.

(** A service that answers every request with 503. *)
Definition unavailable : External := services [] [].

(** A service whose network is down: every attempt raises. *)
Definition network_down : External :=
  {| session_get := fun _ _ _ => Raised ServerTimeoutError;
     response_json := fun _ => None;
     Image_open := two_byte_size;
     Image_save := fun b => Some b;
     Image_save_leaves := pil_leaves;
     strftime_now := "20240101_000000" |}.

(** An image server that fails the first attempt and answers from the
    second one on. *)
Definition flaky_image : External :=
  services
    [ (("http://img/1.jpg", []),
       fun n => if (n =? 1)%nat then Raised ServerTimeoutError
                else Response 200 [Byte.x05; Byte.x05]) ]
    [].

Definition page_of (n : Z) (gid rid : string) : JsonObject :=
  mkJson (Some n)
         (Some [mkReleaseGroup gid (Some "Album")
                  (Some [mkRelease rid (Some "Official")])])
         None.

Definition art_of (u : string) : JsonObject :=
  mkJson None None (Some [mkCoverImage (Some u) (Some ["Front"])]).

(** A catalog with 150 matches whose second page cannot be reached. *)
Definition second_page_down : External :=
  services
    [ ((release_group_url, release_group_params "A" "a1" 0 100),
       always (Response 200 [Byte.x01]));
      ((release_group_url, release_group_params "A" "a1" 100 100),
       always (Raised ClientConnectionError)) ]
    [ ([Byte.x01], page_of 150 "g1" "r1") ].

(** An art archive that cannot be reached for release [r1]. *)
Definition archive_down : External :=
  services
    [ ((cover_art_url "r1", []), always (Raised ClientConnectionError));
      ((cover_art_url "r2", []), always (Response 200 [Byte.x04])) ]
    [ ([Byte.x04], art_of "http://img/2.jpg") ].

(** One artist with two albums; each album has one release with one front
    cover, 5x5 for [a1] and 10x10 for [a2]. *)
Definition two_albums : External :=
  services
    [ ((release_group_url, release_group_params "A" "a1" 0 100),
       always (Response 200 [Byte.x01]));
      ((release_group_url, release_group_params "A" "a2" 0 100),
       always (Response 200 [Byte.x02]));
      ((cover_art_url "r1", []), always (Response 200 [Byte.x03]));
      ((cover_art_url "r2", []), always (Response 200 [Byte.x04]));
      (("http://img/1.jpg", []), always (Response 200 [Byte.x05; Byte.x05]));
      (("http://img/2.jpg", []), always (Response 200 [Byte.x0a; Byte.x0a])) ]
    [ ([Byte.x01], page_of 1 "g1" "r1");
      ([Byte.x02], page_of 1 "g2" "r2");
      ([Byte.x03], art_of "http://img/1.jpg");
      ([Byte.x04], art_of "http://img/2.jpg") ].

Definition two_albums_config : Config :=
  mkConfig [mkArtistAlbums "A" ["a1"; "a2"]] None None false "out" true.

Definition in_launch_order : Schedulers :=
  mkSchedulers launch_order launch_order launch_order.

Definition image_1 : ImageDetail :=
  mkImageDetail "http://img/1.jpg" (5, 5) 25 None.

Definition image_2 : ImageDetail :=
  mkImageDetail "http://img/2.jpg" (10, 10) 100 None.

(** A world whose cache already holds a 10x10 file for [1.jpg]. *)
Definition cached_world : world :=
  mkWorld [("out/A/a1/1.jpg", [Byte.x0a; Byte.x0a])] [].

(** A catalog with 250 matches, of which the second page is refused with
    a 503. *)
Definition three_pages : External :=
  services
    [ ((release_group_url, release_group_params "A" "a1" 0 100),
       always (Response 200 [Byte.x01]));
      ((release_group_url, release_group_params "A" "a1" 200 100),
       always (Response 200 [Byte.x02])) ]
    [ ([Byte.x01], page_of 250 "g1" "r1");
      ([Byte.x02], page_of 250 "g2" "r2") ].

(** A catalog without any match. *)
Definition no_matches : External :=
  services
    [ ((release_group_url, release_group_params "A" "a1" 0 100),
       always (Response 200 [Byte.x01])) ]
    [ ([Byte.x01], mkJson (Some 0) (Some []) None) ].







(** Two servers with a cover of the same file name; the encoder refuses
    the 5x5 image of the first one. *)
Definition clashing_names : External :=
  {| session_get :=
       serve [ (("http://a/cover.jpg", []),
                always (Response 200 [Byte.x05; Byte.x05]));
               (("http://b/cover.jpg", []),
                always (Response 200 [Byte.x0a; Byte.x0a])) ];
     response_json := fun _ => None;
     Image_open := two_byte_size;
     Image_save := fun b => if bytes_eqb b [Byte.x05; Byte.x05] then None
                            else Some b;
     Image_save_leaves := pil_leaves;
     strftime_now := "20240101_000000" |}.

Definition cover_a : ImageDetail :=
  mkImageDetail "http://a/cover.jpg" (5, 5) 25 (Some "out/cover.jpg").

Definition cover_b : ImageDetail :=
  mkImageDetail "http://b/cover.jpg" (10, 10) 100 (Some "out/cover.jpg").

(* ------------------------------------------------------------------ *)
(** ** Further observations *)

(** The seconds slept in a trace. *)
Fixpoint slept (t : list event) : Z :=
  match t with
  | [] => 0
  | EvSleep seconds :: t' => seconds + slept t'
  | _ :: t' => slept t'
  end.

(** A service that answers every request with status 200 and a body that
    is not JSON. *)
Definition not_json : External := 
  {| session_get := fun _ _ _ => Response 200 [Byte.x3c];
     response_json := fun _ => None;
     Image_open := two_byte_size;
     Image_save := fun b => Some b;
     Image_save_leaves := pil_leaves;
     strftime_now := "20240101_000000" |}.

(** A catalog that is reached at the third attempt. *)
Definition third_time_lucky : External :=
  services
    [ ((release_group_url, release_group_params "A" "a1" 0 100),
       fun n => if (n <? 3)%nat then Raised ServerTimeoutError
                else Response 200 [Byte.x01]) ]
    [ ([Byte.x01], page_of 1 "g1" "r1") ].

(** An answer of the art archive with three entries: a front cover, a back
    cover, and an entry without URL. *)
Definition mixed_answer : JsonObject :=
  mkJson None None
         (Some [mkCoverImage (Some "http://img/front.jpg") (Some ["Front"]);
                mkCoverImage (Some "http://img/back.jpg") (Some ["Back"]);
                mkCoverImage None (Some ["Front"])]).

Definition mixed_archive : External :=
  services
    [ ((cover_art_url "r1", []), always (Response 200 [Byte.x03])) ]
    [ ([Byte.x03], mixed_answer) ].

(** A world whose cache holds a file for [1.jpg] that is not an image. *)
Definition broken_cache : world :=
  mkWorld [("out/A/a1/1.jpg", [Byte.x3c])] [].

(* ------------------------------------------------------------------ *)
(** ** The interactive configuration

    The branch of the script that asks for the configuration when none is
    given on the command line.  The answers to [prompt] are a list of
    strings, read in order; when they run out before the loop over the
    artists is left, [prompt] raises [EOFError] and there is no
    configuration ([None]).  A character is a code below 256; [isspace]
    and [lower] are those of Python on the ASCII characters, and say
    nothing of the white space and the letters beyond ASCII. *)

(** [c.isspace()] on ASCII: tab, line feed, vertical tab, form feed,
    carriage return, the separators 28 to 31, and the space. *)
Definition isspace (c : ascii) : bool :=
  let n := nat_of_ascii c in
  (((9 <=? n) && (n <=? 13)) || ((28 <=? n) && (n <=? 32)))%nat%bool.

Definition is_quote (c : ascii) : bool := Ascii.eqb c (ascii_of_nat 34).

Definition comma : ascii := ","%char.

(** [s.lstrip(...)]: drop the leading characters that are to go. *)
Fixpoint lstrip (drop : ascii -> bool) (s : string) : string :=
  match s with
  | EmptyString => EmptyString
  | String c rest => if drop c then lstrip drop rest else s
  end.

(** [s.rstrip(...)]: drop the trailing characters that are to go. *)
Fixpoint rstrip (drop : ascii -> bool) (s : string) : string :=
  match s with
  | EmptyString => EmptyString
  | String c rest =>
      match rstrip drop rest with
      | EmptyString => if drop c then EmptyString else String c EmptyString
      | kept => String c kept
      end
  end.

(** [s.strip()]. *)
Definition strip (s : string) : string := rstrip isspace (lstrip isspace s).

(** [s.strip] of the double quote. *)
Definition strip_quotes (s : string) : string :=
  rstrip is_quote (lstrip is_quote s).

Definition lower_char (c : ascii) : ascii :=
  let n := nat_of_ascii c in
  if ((65 <=? n) && (n <=? 90))%nat%bool then ascii_of_nat (n + 32) else c.

(** [s.lower()]. *)
Fixpoint lower (s : string) : string :=
  match s with
  | EmptyString => EmptyString
  | String c rest => String (lower_char c) (lower rest)
  end.

(** [s.split(sep)] for a separator of one character. *)
Fixpoint split_on (sep : ascii) (s : string) : list string :=
  match s with
  | EmptyString => [EmptyString]
  | String c rest =>
      if Ascii.eqb c sep then EmptyString :: split_on sep rest
      else
        match split_on sep rest with
        | piece :: pieces => String c piece :: pieces
        | [] => [String c EmptyString]
        end
  end.

(** Truth value of a string: the empty string is false. *)
Definition nonempty (s : string) : bool := negb (String.eqb s "").

(** The albums of an answer: its pieces between commas, the empty ones
    left out, each stripped of white space and then of double quotes. *)
Definition parse_albums (albums_input : string) : list string :=
  map (fun album => strip_quotes (strip album))
      (filter nonempty (split_on comma albums_input)).

(** The loop that asks for an artist and its albums until the artist is
    left empty. *)
Fixpoint read_artists (answers : list string) : option (list ArtistAlbums) :=
  match answers with
  | [] => None
  | artist :: answers' =>
      if nonempty artist then
        match answers' with
        | [] => None
        | albums_input :: answers'' =>
            match read_artists answers'' with
            | Some artists_albums =>
                Some (mkArtistAlbums artist (parse_albums albums_input)
                      :: artists_albums)
            | None => None
            end
        end
      else Some []
  end.

(** The configuration built from the answers: release type, status,
    whether to save the images, output directory, whether to skip
    existing images, then the artists. *)
Definition interactive_config (answers : list string) : option Config :=
  match answers with
  | release_type :: status :: save_images_input :: out_dir
    :: skip_existing_input :: answers' =>
      match read_artists answers' with
      | Some artists =>
          Some (mkConfig artists
                  (if nonempty release_type then Some (strip release_type)
                   else None)
                  (if nonempty status then Some (strip status) else None)
                  (String.eqb (lower (strip save_images_input)) "yes")
                  (if nonempty (strip out_dir) then strip out_dir else ".")
                  (negb (String.eqb (lower (strip skip_existing_input)) "no")))
      | None => None
      end
  | _ => None
  end.

(** Whether a character occurs in a string. *)
Fixpoint occurs (c : ascii) (s : string) : bool :=
  match s with
  | EmptyString => false
  | String c' rest => (Ascii.eqb c' c || occurs c rest)%bool
  end.

Definition starts_with (p : ascii -> bool) (s : string) : bool :=
  match s with
  | String c _ => p c
  | EmptyString => false
  end.

Fixpoint ends_with (p : ascii -> bool) (s : string) : bool :=
  match s with
  | EmptyString => false
  | String c EmptyString => p c
  | String _ rest => ends_with p rest
  end.

(** A string of white space only. *)
Fixpoint blank (s : string) : bool :=
  match s with
  | EmptyString => true
  | String c rest => (isspace c && blank rest)%bool
  end.

(** The names joined by commas. *)
Fixpoint comma_joined (names : list string) : string :=
  match names with
  | [] => EmptyString
  | [name] => name
  | name :: rest => (name ++ String comma (comma_joined rest))%string
  end.

(** Text made of ASCII characters only. *)
Fixpoint ascii_text (s : string) : bool :=
  match s with
  | EmptyString => true
  | String c rest => ((nat_of_ascii c <? 128)%nat && ascii_text rest)%bool
  end.

(** An album name that needs no cleaning: ASCII text, not empty, without
    comma, and without white space or double quote at either end. *)
Definition plain_name (name : string) : Prop :=
  ascii_text name = true
  /\ name <> EmptyString
  /\ occurs comma name = false
  /\ starts_with isspace name = false /\ ends_with isspace name = false
  /\ starts_with is_quote name = false /\ ends_with is_quote name = false.

(** The answers someone types to enter the given artists and albums. *)
Definition typed (entries : list ArtistAlbums) : list string :=
  flat_map (fun entry => [artist_name entry; comma_joined (albums entry)])
           entries.

(* ================================================================== *)
(** * Properties *)

(* ------------------------------------------------------------------ *)
(** ** The world and the retry loop *)

Lemma record_nil (w : world) : record w [] = w.
Proof. destruct w; unfold record; simpl; now rewrite app_nil_r. Qed.

Lemma record_record (w : world) (a b : list event) :
  record (record w a) b = record w (a ++ b).
Proof. unfold record; simpl; now rewrite <- app_assoc. Qed.

(** Case analysis on what one attempt of [fetch_image_details] meets. *)
Ltac run_body :=
  unfold fetch_image_details_body, fetch_image_details_try, try_except,
    bind, skip_and_exists, path_exists, open_local_image, save_image,
    http_get, log, emit, ret, raise, cache_path in *.

Ltac split_cases :=
  repeat (simpl;
          match goal with
          | |- context [if ?b then _ else _] => is_var b; destruct b
          | H : _ = lookup ?p ?f |- context [lookup ?p ?f] => rewrite <- H
          | H : lookup ?p ?f = Some _ |- context [lookup ?p ?f] => rewrite H
          | H : lookup ?p ?f = None |- context [lookup ?p ?f] => rewrite H
          | H : session_get ?u ?p ?a = _ |- context [session_get ?u ?p ?a] =>
              rewrite H
          | H : Image_open ?b = _ |- context [Image_open ?b] => rewrite H
          | H : Image_save ?b = _ |- context [Image_save ?b] => rewrite H
          | |- context [session_get ?u ?p ?a] =>
              destruct (session_get u p a) eqn:?
          | |- context [Image_open ?b] => destruct (Image_open b) eqn:?
          | |- context [Image_save ?b] => destruct (Image_save b) eqn:?
          | |- context [lookup ?p (files ?w)] =>
              is_var p; is_var w; destruct (lookup p (files w)) eqn:?
          end).

Section RetryLoop.

Context {A : Type} (wait : nat -> Z) (reraise : bool) (fn : nat -> M A).

Lemma retrying_returns (left a : nat) (w w' : world) (x : A) :
  fn a w = (Ok x, w') -> retrying wait reraise left a fn w = (Ok x, w').
Proof. intros H; destruct left; simpl; now rewrite H. Qed.

Lemma retrying_stops (a : nat) (w w' : world) (e : exn) :
  fn a w = (Raise e, w') ->
  retrying wait reraise 0 a fn w = (Raise (if reraise then e else RetryError), w').
Proof. intros H; simpl; now rewrite H. Qed.

Lemma retrying_sleeps (left a : nat) (w w' : world) (e : exn) :
  fn a w = (Raise e, w') ->
  retrying wait reraise (S left) a fn w =
  retrying wait reraise left (S a) fn (record w' [EvSleep (wait a)]).
Proof. intros H; simpl; now rewrite H. Qed.

(** With [reraise=True] an exception that leaves the loop is one the
    wrapped function raised. *)
Lemma retrying_reraises (P : exn -> Prop) :
  (forall a w e, fst (fn a w) = Raise e -> P e) ->
  forall left a w e,
    fst (retrying wait true left a fn w) = Raise e -> P e.
Proof.
  intros Hfn. induction left as [|left IH]; intros a w e; simpl;
    pose proof (Hfn a w) as Ha; destruct (fn a w) as [[x|e'] w']; simpl in *;
    try discriminate.
  - intros [= <-]. now apply Ha.
  - apply IH.
Qed.

End RetryLoop.

(** The waits of the decorator: 1 second first, then doubling up to 60. *)
Lemma retry_wait_first : retry_wait 1 = 1.
Proof. reflexivity. Qed.

Lemma retry_wait_doubles (n : nat) :
  (1 <= n)%nat -> retry_wait (S n) = Z.min 60 (2 * retry_wait n).
Proof.
  intros Hn. unfold retry_wait, wait_exponential.
  replace (Z.of_nat (S n) - 1) with (Z.succ (Z.of_nat n - 1)) by lia.
  rewrite Z.pow_succ_r by lia.
  assert (Hpos : 0 < 2 ^ (Z.of_nat n - 1)) by (apply Z.pow_pos_nonneg; lia).
  lia.
Qed.

Section FetchData.

Context {E : External}.

Lemma fetch_data_body_raised (u : string) (p : params) (a : nat) (w : world)
    (e : net_exn) :
  session_get u p a = Raised e ->
  fetch_data_body u p a w = (Raise (NetError e), record w [EvGet u p a]).
Proof.
  intros H. unfold fetch_data_body, bind, http_get. now rewrite H.
Qed.

Lemma fetch_data_body_status (u : string) (p : params) (a : nat) (w : world)
    (status : Z) (body : bytes) :
  session_get u p a = Response status body ->
  status <> 200 ->
  fetch_data_body u p a w =
  (Ok empty_dict,
   record w [EvGet u p a; EvLog WARNING (FailedFetchStatus u status)]).
Proof.
  intros H Hs. unfold fetch_data_body, bind, http_get. rewrite H. simpl.
  destruct (Z.eqb_spec status 200) as [->|_]; [contradiction|].
  unfold log, emit, ret. now rewrite record_record.
Qed.

Lemma fetch_data_body_json (u : string) (p : params) (a : nat) (w : world)
    (body : bytes) (j : JsonObject) :
  session_get u p a = Response 200 body ->
  response_json body = Some j ->
  fetch_data_body u p a w = (Ok j, record w [EvGet u p a]).
Proof.
  intros H Hj. unfold fetch_data_body, bind, http_get, json_of.
  rewrite H. simpl. now rewrite Hj.
Qed.

(** [k] transport failures in a row cost [k] attempts and [k] waits. *)
Lemma fetch_data_failed_attempts (u : string) (p : params) (k : nat) :
  forall (left a : nat) (w : world),
    (forall i, (a <= i < a + k)%nat -> exists e, session_get u p i = Raised e) ->
    retrying retry_wait true (k + left) a (fetch_data_body u p) w =
    retrying retry_wait true left (a + k) (fetch_data_body u p)
             (record w (failed_attempts u p a k)).
Proof.
  induction k as [|k IH]; intros left a w H.
  - unfold failed_attempts; simpl. rewrite record_nil, Nat.add_0_r. reflexivity.
  - destruct (H a) as [e He]; [lia|].
    change (S k + left)%nat with (S (k + left)).
    rewrite (retrying_sleeps _ _ _ _ _ _ _ _ (fetch_data_body_raised u p a w e He)).
    rewrite IH by (intros i Hi; apply H; lia).
    rewrite !record_record. unfold failed_attempts. simpl.
    now rewrite Nat.add_succ_r.
Qed.

End FetchData.

(* ------------------------------------------------------------------ *)
(** ** The fetch client *)

Section FetchClient.

Context {E : External}.

Lemma fetch_data_status_not_200 (u : string) (p : params) (w : world)
    (n : nat) (status : Z) (body : bytes) :
  (1 <= n <= max_attempts)%nat ->
  (forall i, (1 <= i < n)%nat -> exists e, session_get u p i = Raised e) ->
  session_get u p n = Response status body ->
  status <> 200 ->
  fetch_data u p w =
  (Ok empty_dict,
   record w (failed_attempts u p 1 (n - 1)
             ++ [EvGet u p n; EvLog WARNING (FailedFetchStatus u status)])).
Proof.
  intros [Hn1 Hn5] Hfail Hresp Hstatus.
  unfold fetch_data, retry, max_attempts in *.
  replace (5 - 1)%nat with ((n - 1) + (5 - n))%nat by lia.
  rewrite fetch_data_failed_attempts by (intros i Hi; apply Hfail; lia).
  replace (1 + (n - 1))%nat with n by lia.
  rewrite (retrying_returns _ _ _ _ _ _ _ _
             (fetch_data_body_status u p n _ status body Hresp Hstatus)).
  now rewrite record_record.
Qed.

Lemma fetch_data_json (u : string) (p : params) (w : world)
    (n : nat) (body : bytes) (j : JsonObject) :
  (1 <= n <= max_attempts)%nat ->
  (forall i, (1 <= i < n)%nat -> exists e, session_get u p i = Raised e) ->
  session_get u p n = Response 200 body ->
  response_json body = Some j ->
  fetch_data u p w =
  (Ok j, record w (failed_attempts u p 1 (n - 1) ++ [EvGet u p n])).
Proof.
  intros [Hn1 Hn5] Hfail Hresp Hj.
  unfold fetch_data, retry, max_attempts in *.
  replace (5 - 1)%nat with ((n - 1) + (5 - n))%nat by lia.
  rewrite fetch_data_failed_attempts by (intros i Hi; apply Hfail; lia).
  replace (1 + (n - 1))%nat with n by lia.
  rewrite (retrying_returns _ _ _ _ _ _ _ _
             (fetch_data_body_json u p n _ body j Hresp Hj)).
  now rewrite record_record.
Qed.

Lemma fetch_data_exhausted (u : string) (p : params) (w : world) (e : net_exn) :
  (forall i, (1 <= i < max_attempts)%nat ->
             exists e', session_get u p i = Raised e') ->
  session_get u p max_attempts = Raised e ->
  fetch_data u p w =
  (Raise (NetError e),
   record w [EvGet u p 1; EvSleep 1; EvGet u p 2; EvSleep 2;
             EvGet u p 3; EvSleep 4; EvGet u p 4; EvSleep 8;
             EvGet u p 5]).
Proof.
  intros Hfail Hlast.
  unfold fetch_data, retry, max_attempts in *.
  change (5 - 1)%nat with (4 + 0)%nat.
  rewrite fetch_data_failed_attempts by (intros i Hi; apply Hfail; lia).
  rewrite (retrying_stops _ _ _ _ _ _ _
             (fetch_data_body_raised u p _ _ e Hlast)).
  now rewrite record_record.
Qed.

Lemma requests_app (t1 t2 : list event) :
  requests (t1 ++ t2) = (requests t1 + requests t2)%nat.
Proof.
  induction t1 as [|ev t1 IH]; [reflexivity|].
  destruct ev; simpl; now rewrite IH.
Qed.

(** Whatever the network does, a call makes at most [left + 1] requests. *)
Lemma fetch_data_attempts_bounded (u : string) (p : params) (left : nat) :
  forall a w, exists evs,
    snd (retrying retry_wait true left a (fetch_data_body u p) w) = record w evs
    /\ (1 <= requests evs <= S left)%nat.
Proof.
  assert (Hbody : forall a w, exists r evs,
             fetch_data_body u p a w = (r, record w evs) /\ requests evs = 1%nat).
  { intros a w. unfold fetch_data_body, bind, http_get.
    destruct (session_get u p a) as [e|status body]; simpl.
    - now eexists _, _.
    - destruct (status =? 200).
      + unfold json_of, ret, raise. destruct (response_json body); now eexists _, _.
      + unfold bind, log, emit, ret. rewrite record_record. now eexists _, _. }
  induction left as [|left IH]; intros a w;
    destruct (Hbody a w) as (r & evs & Hr & Hevs); simpl; rewrite Hr.
  - exists evs. destruct r; (split; [reflexivity|lia]).
  - destruct r as [x|e]; [exists evs; split; [reflexivity|lia]|].
    destruct (IH (S a) (record (record w evs) [EvSleep (retry_wait a)]))
      as (evs' & Hs & Hevs').
    exists (evs ++ [EvSleep (retry_wait a)] ++ evs'). split.
    + unfold emit. now rewrite Hs, !record_record.
    + rewrite !requests_app. simpl. lia.
Qed.

(** C3.  [fetch_data]: a response whose status is not 200 is answered by a
    warning and the empty dictionary, and nothing is requested after it;
    attempts that fail on the transport are repeated, with waits of 1, 2, 4
    and 8 seconds (1 second first, then doubling, never above 60), and
    the fifth failure in a row is raised to the caller; in no case are
    more than five requests made. *)
Theorem fetch_data_soft_failure_and_retry (u : string) (p : params) (w : world) :
  (forall (n : nat) (status : Z) (body : bytes),
      (1 <= n <= max_attempts)%nat ->
      (forall i, (1 <= i < n)%nat -> exists e, session_get u p i = Raised e) ->
      session_get u p n = Response status body ->
      status <> 200 ->
      fetch_data u p w =
      (Ok empty_dict,
       record w (failed_attempts u p 1 (n - 1)
                 ++ [EvGet u p n; EvLog WARNING (FailedFetchStatus u status)])))
  /\ (forall (e : net_exn),
      (forall i, (1 <= i < max_attempts)%nat ->
                 exists e', session_get u p i = Raised e') ->
      session_get u p max_attempts = Raised e ->
      fetch_data u p w =
      (Raise (NetError e),
       record w [EvGet u p 1; EvSleep 1; EvGet u p 2; EvSleep 2;
                 EvGet u p 3; EvSleep 4; EvGet u p 4; EvSleep 8;
                 EvGet u p 5]))
  /\ retry_wait 1 = 1
  /\ (forall n, (1 <= n)%nat -> retry_wait (S n) = Z.min 60 (2 * retry_wait n))
  /\ (exists evs,
        snd (fetch_data u p w) = record w evs
        /\ (1 <= requests evs <= max_attempts)%nat).
Proof.
  split; [|split; [|split; [|split]]].
  - intros n status body. apply fetch_data_status_not_200.
  - intros e. apply fetch_data_exhausted.
  - exact retry_wait_first.
  - exact retry_wait_doubles.
  - apply fetch_data_attempts_bounded.
Qed.

End FetchClient.

Lemma fetch_data_soft_failure_and_retry_witness :
  fetch_data (E := unavailable) "https://coverartarchive.org/release/r" [] w0 =
  (Ok empty_dict,
   record w0 [EvGet "https://coverartarchive.org/release/r" [] 1;
              EvLog WARNING
                (FailedFetchStatus "https://coverartarchive.org/release/r" 503)])
  /\ fetch_data (E := network_down) "https://coverartarchive.org/release/r" [] w0 =
     (Raise (NetError ServerTimeoutError),
      record w0 [EvGet "https://coverartarchive.org/release/r" [] 1; EvSleep 1;
                 EvGet "https://coverartarchive.org/release/r" [] 2; EvSleep 2;
                 EvGet "https://coverartarchive.org/release/r" [] 3; EvSleep 4;
                 EvGet "https://coverartarchive.org/release/r" [] 4; EvSleep 8;
                 EvGet "https://coverartarchive.org/release/r" [] 5]).
Proof.
  split.
  - refine (proj1 (fetch_data_soft_failure_and_retry (E := unavailable)
                     "https://coverartarchive.org/release/r" [] w0)
                  1%nat 503 [] _ _ _ _).
    + unfold max_attempts; lia.
    + intros i Hi; lia.
    + reflexivity.
    + lia.
  - refine (proj1 (proj2 (fetch_data_soft_failure_and_retry (E := network_down)
                     "https://coverartarchive.org/release/r" [] w0))
                  ServerTimeoutError _ _).
    + intros i _. exists ServerTimeoutError. reflexivity.
    + reflexivity.
Defined.

(* ------------------------------------------------------------------ *)
(** ** Transport failures outside [fetch_data] *)

Section TransportFailures.

Context {E : External}.

(** With [reraise=True] the exception that leaves [fetch_data] is the one
    of the last attempt, which [except RetryError] does not handle. *)
Lemma fetch_release_groups_exhausted (artist album : string) (offset limit : Z)
    (w : world) (e : net_exn) :
  let p := release_group_params artist album offset limit in
  (forall i, (1 <= i < max_attempts)%nat ->
             exists e', session_get release_group_url p i = Raised e') ->
  session_get release_group_url p max_attempts = Raised e ->
  fst (fetch_release_groups artist album offset limit w) = Raise (NetError e).
Proof.
  intros p Hfail Hlast. unfold fetch_release_groups, try_except.
  fold p. now rewrite (fetch_data_exhausted _ p w e Hfail Hlast).
Qed.

Lemma fetch_cover_art_urls_exhausted (rid : string) (w : world) (e : net_exn) :
  (forall i, (1 <= i < max_attempts)%nat ->
             exists e', session_get (cover_art_url rid) [] i = Raised e') ->
  session_get (cover_art_url rid) [] max_attempts = Raised e ->
  fst (fetch_cover_art_urls rid w) = Raise (NetError e).
Proof.
  intros Hfail Hlast. unfold fetch_cover_art_urls, try_except, bind.
  now rewrite (fetch_data_exhausted _ [] w e Hfail Hlast).
Qed.

(** The handler inside [fetch_image_details] takes every exception of the
    download, so the retry loop around it sees a value. *)
Lemma fetch_image_details_try_returns (u : string) (lp : option string)
    (skip_existing : bool) (a : nat) (w : world) :
  exists r w', fetch_image_details_try u lp skip_existing a w = (Ok r, w').
Proof.
  unfold fetch_image_details_try, try_except.
  match goal with |- context [match ?m w with _ => _ end] => destruct (m w) as [[r|e] w'] end.
  - now exists r, w'.
  - simpl. unfold bind, log, emit, ret. now eexists _, _.
Qed.

Lemma fetch_image_details_download_fails (u : string) (skip_existing : bool)
    (w : world) (e : net_exn) :
  session_get u [] 1 = Raised e ->
  fetch_image_details u None skip_existing w =
  (Ok None,
   record w [EvGet u [] 1; EvLog ERROR (FailedImageDetails u (NetError e))]).
Proof.
  intros H. unfold fetch_image_details, retry.
  apply retrying_returns.
  unfold fetch_image_details_body. simpl.
  unfold fetch_image_details_try, try_except, bind, http_get.
  rewrite H. simpl. unfold bind, log, emit, ret.
  now rewrite record_record.
Qed.

End TransportFailures.

(* ------------------------------------------------------------------ *)
(** ** The retry loop around [fetch_image_details] *)

Section SingleRequest.

Context {E : External}.

(** One attempt makes at most one request, and none when it raises. *)
Lemma body_requests (u : string) (save_path : option string)
    (skip_existing : bool) (a : nat) (w : world) :
  exists evs,
    trace (snd (fetch_image_details_body u save_path skip_existing a w)) =
      trace w ++ evs
    /\ (requests evs <= 1)%nat
    /\ (forall e,
          fst (fetch_image_details_body u save_path skip_existing a w) = Raise e ->
          requests evs = 0%nat).
Proof.
  run_body. unfold record.
  set (p := path_join (get save_path "") (basename u)).
  destruct (truthy save_path); split_cases; simpl; rewrite <- ?app_assoc;
    (eexists; split; [reflexivity|]; simpl; split;
     [lia|intros e' He'; try discriminate; reflexivity]).
Qed.

(** The retry loop around [fetch_image_details] never issues a second
    request: a failed download is caught inside the function. *)
Lemma fetch_image_details_requests_once (u : string)
    (save_path : option string) (skip_existing : bool) (w : world) :
  exists evs,
    trace (snd (fetch_image_details u save_path skip_existing w)) = trace w ++ evs
    /\ (requests evs <= 1)%nat.
Proof.
  unfold fetch_image_details, retry.
  generalize 1%nat at 2. generalize (max_attempts - 1)%nat. intros left.
  revert w. induction left as [|left IH]; intros w a; simpl;
    destruct (body_requests u save_path skip_existing a w)
      as (evs & Htrace & Hle & Hraise);
    destruct (fetch_image_details_body u save_path skip_existing a w)
      as [[r|e] w1]; simpl in *; try (now exists evs).
  destruct (IH (record w1 [EvSleep (retry_wait a)]) (S a)) as (evs' & Htrace' & Hle').
  exists (evs ++ [EvSleep (retry_wait a)] ++ evs'). split.
  - rewrite Htrace'. simpl. rewrite Htrace. now rewrite <- !app_assoc.
  - rewrite !requests_app, (Hraise e eq_refl). simpl. lia.
Qed.

End SingleRequest.

(** C4.  The first attempt at an image fails on the transport and the second
    one would be answered: [fetch_image_details] has given the URL up after
    a single request, without a wait.  Whatever the services and the
    cache, it never makes a second request. *)
Theorem fetch_image_details_does_not_retry_download :
  @session_get flaky_image "http://img/1.jpg" [] 2 =
    Response 200 [Byte.x05; Byte.x05]
  /\ fetch_image_details (E := flaky_image) "http://img/1.jpg" None true w0 =
     (Ok None,
      record w0 [EvGet "http://img/1.jpg" [] 1;
                 EvLog ERROR
                   (FailedImageDetails "http://img/1.jpg"
                      (NetError ServerTimeoutError))])
  /\ (forall (E : External) u save_path skip_existing w,
        exists evs,
          trace (snd (fetch_image_details u save_path skip_existing w)) =
            trace w ++ evs
          /\ (requests evs <= 1)%nat).
Proof.
  split; [reflexivity|]. split.
  - now apply (@fetch_image_details_download_fails flaky_image).
  - intros E. apply fetch_image_details_requests_once.
Qed.

(* ------------------------------------------------------------------ *)
(** ** The handlers for [RetryError] *)

Section DeadHandlers.

Context {E : External}.

Lemma fetch_data_never_RetryError (u : string) (p : params) (w : world) (e : exn) :
  fst (fetch_data u p w) = Raise e -> is_RetryError e = false.
Proof.
  unfold fetch_data, retry.
  apply (retrying_reraises retry_wait (fetch_data_body u p)
           (fun e => is_RetryError e = false)).
  clear. intros a w e. unfold fetch_data_body, bind, http_get.
  destruct (session_get u p a) as [e'|status body]; simpl.
  - now intros [= <-].
  - destruct (status =? 200).
    + unfold json_of, ret, raise. destruct (response_json body); simpl;
        [discriminate|now intros [= <-]].
    + discriminate.
Qed.

(** The handlers [except RetryError] never run: both functions do what
    their [try] block does. *)
Lemma fetch_release_groups_handler_is_dead (artist album : string)
    (offset limit : Z) (w : world) :
  fetch_release_groups artist album offset limit w =
  fetch_data release_group_url
             (release_group_params artist album offset limit) w.
Proof.
  unfold fetch_release_groups, try_except.
  pose proof (fetch_data_never_RetryError release_group_url
                (release_group_params artist album offset limit) w) as H.
  destruct (fetch_data _ _ w) as [[j|e] w']; [reflexivity|].
  now rewrite (H e eq_refl).
Qed.

Lemma fetch_cover_art_urls_handler_is_dead (rid : string) (w : world) :
  fetch_cover_art_urls rid w =
  (data <- fetch_data (cover_art_url rid) [] ;;
   ret (rid, front_urls (get (images data) []))) w.
Proof.
  unfold fetch_cover_art_urls, try_except, bind.
  pose proof (fetch_data_never_RetryError (cover_art_url rid) [] w) as H.
  destruct (fetch_data _ _ w) as [[j|e] w']; [reflexivity|].
  now rewrite (H e eq_refl).
Qed.

End DeadHandlers.

(** C2.  A page of the catalog, or the art archive for one release id, fails
    on the transport at all five attempts: the exception leaves
    [fetch_release_groups] and [fetch_cover_art_urls], and with it the
    stage, the album and the batch, although a sibling was answered.
    Whatever the services, the two functions do what their [try] block
    does: the handler for [RetryError] never runs. *)
Theorem exhausted_retries_abort_the_stage :
  fst (fetch_release_groups (E := second_page_down) "A" "a1" 100 100 w0) =
    Raise (NetError ClientConnectionError)
  /\ fst (get_release_groups (E := second_page_down) launch_order "A" "a1" w0) =
     Raise (NetError ClientConnectionError)
  /\ fst (process_artist_album (E := second_page_down) in_launch_order
            "A" "a1" None None false "out" true w0) =
     Raise (NetError ClientConnectionError)
  /\ fst (fetch_cover_art_urls (E := archive_down) "r1" w0) =
     Raise (NetError ClientConnectionError)
  /\ fst (fetch_cover_art_urls (E := archive_down) "r2" w0) =
     Ok ("r2", ["http://img/2.jpg"])
  /\ fst (get_cover_art_urls (E := archive_down) launch_order ["r1"; "r2"] w0) =
     Raise (NetError ClientConnectionError)
  /\ fst (get_cover_art_urls (E := archive_down) reverse_order ["r1"; "r2"] w0) =
     Raise (NetError ClientConnectionError)
  /\ (forall (E : External) artist album offset limit w,
        fetch_release_groups artist album offset limit w =
        fetch_data release_group_url
                   (release_group_params artist album offset limit) w)
  /\ (forall (E : External) rid w,
        fetch_cover_art_urls rid w =
        (data <- fetch_data (cover_art_url rid) [] ;;
         ret (rid, front_urls (get (images data) []))) w).
Proof.
  repeat split; try (vm_compute; reflexivity).
  - intros E. apply fetch_release_groups_handler_is_dead.
  - intros E. apply fetch_cover_art_urls_handler_is_dead.
Qed.

(** When every artist entry names exactly one album, the entries of
    [artists_albums] and the tasks line up and the summary is the one the
    specification describes. *)
Lemma aggregate_one_album_each (entries : list ArtistAlbums) :
  (forall entry, In entry entries -> exists album, albums entry = [album]) ->
  forall results,
    aggregate results entries = summary_by_request results entries.
Proof.
  unfold aggregate, summary_by_request.
  induction entries as [|entry entries IH]; intros Hone results.
  - now destruct results.
  - destruct (Hone entry (or_introl eq_refl)) as [album Halbum].
    destruct results as [|r results]; [reflexivity|].
    unfold album_requests. simpl. rewrite Halbum. simpl.
    fold (album_requests entries).
    rewrite IH by (intros e He; apply Hone; now right).
    now destruct r.
Qed.

(** C1.  One artist with two albums: the second album's pipeline wins with
    the 10x10 image, and the summary [main] writes pairs that album with
    the first album's 5x5 image, where the specification's summary pairs
    it with its own. *)
Theorem main_pairs_second_album_with_first_winner :
  fst (process_artist_album (E := two_albums) in_launch_order
         "A" "a1" None None false "out" true w0) = Ok (Some image_1)
  /\ fst (process_artist_album (E := two_albums) in_launch_order
            "A" "a2" None None false "out" true w0) = Ok (Some image_2)
  /\ In (EvWriteJson "out/A/highest_resolution_images_20240101_000000.json"
           (DumpSummary [mkSummaryEntry "A" "a1" image_1;
                         mkSummaryEntry "A" "a2" image_1]))
        (snd (run (main (E := two_albums) (fun _ => in_launch_order)
                        two_albums_config false)))
  /\ summary_by_request [Some image_1; Some image_2]
                        (artists_albums two_albums_config) =
     [mkSummaryEntry "A" "a1" image_1; mkSummaryEntry "A" "a2" image_2].
Proof.
  split; [|split; [|split]].
  - vm_compute; reflexivity.
  - vm_compute; reflexivity.
  - vm_compute. do 15 right. left. reflexivity.
  - reflexivity.
Qed.

(* ------------------------------------------------------------------ *)
(** ** The image materializer on one URL *)

Section OneImage.

Context {E : External}.

Lemma cache_hit (u : string) (save_path : option string) (w : world)
    (b : bytes) (size : Z * Z) :
  truthy save_path = true ->
  let path := path_join (get save_path "") (basename u) in
  lookup path (files w) = Some b ->
  Image_open b = Some size ->
  fetch_image_details u save_path true w =
  (Ok (Some (mkImageDetail u size (fst size * snd size) (Some path))),
   record w [EvExists path; EvOpenImage path]).
Proof.
  intros Hset path Hfile Hsize.
  unfold fetch_image_details, retry. apply retrying_returns.
  unfold fetch_image_details_body. rewrite Hset. fold path.
  unfold bind, skip_and_exists, path_exists. rewrite Hfile.
  unfold open_local_image. simpl. rewrite Hfile, Hsize.
  unfold ret, image_detail. now rewrite record_record.
Qed.

Lemma body_cache_unreadable (u : string) (save_path : option string)
    (a : nat) (w : world) (b : bytes) :
  truthy save_path = true ->
  let path := path_join (get save_path "") (basename u) in
  lookup path (files w) = Some b ->
  Image_open b = None ->
  fetch_image_details_body u save_path true a w =
  (Raise UnidentifiedImageError, record w [EvExists path; EvOpenImage path]).
Proof.
  intros Hset path Hfile Hsize.
  unfold fetch_image_details_body. rewrite Hset. fold path.
  unfold bind, skip_and_exists, path_exists. rewrite Hfile.
  unfold open_local_image. simpl. rewrite Hfile, Hsize.
  now rewrite record_record.
Qed.

Lemma attempts_cache_unreadable (u : string) (save_path : option string)
    (b : bytes) (left : nat) :
  truthy save_path = true ->
  let path := path_join (get save_path "") (basename u) in
  Image_open b = None ->
  forall (a : nat) (w : world),
    lookup path (files w) = Some b ->
    retrying retry_wait true left a
             (fetch_image_details_body u save_path true) w =
    (Raise UnidentifiedImageError,
     record w (flat_map (fun n => [EvExists path; EvOpenImage path;
                                   EvSleep (retry_wait n)])
                        (seq a left)
               ++ [EvExists path; EvOpenImage path])).
Proof.
  intros Hset path Hsize.
  induction left as [|left IH]; intros a w Hfile.
  - apply (retrying_stops retry_wait true).
    now apply body_cache_unreadable with (b := b).
  - rewrite (retrying_sleeps _ _ _ _ _ _ _ _
               (body_cache_unreadable u save_path a w b Hset Hfile Hsize)).
    rewrite IH by exact Hfile.
    now rewrite !record_record.
Qed.

(** A cached file that is not an image is opened at each of the five
    attempts, and the exception of the last one is raised. *)
Lemma cache_unreadable (u : string) (save_path : option string) (w : world)
    (b : bytes) :
  truthy save_path = true ->
  let path := path_join (get save_path "") (basename u) in
  lookup path (files w) = Some b ->
  Image_open b = None ->
  fetch_image_details u save_path true w =
  (Raise UnidentifiedImageError,
   record w [EvExists path; EvOpenImage path; EvSleep 1;
             EvExists path; EvOpenImage path; EvSleep 2;
             EvExists path; EvOpenImage path; EvSleep 4;
             EvExists path; EvOpenImage path; EvSleep 8;
             EvExists path; EvOpenImage path]).
Proof.
  intros Hset path Hfile Hsize.
  unfold fetch_image_details, retry.
  now rewrite (attempts_cache_unreadable u save_path b _ Hset Hsize 1%nat w Hfile).
Qed.

(** C8.  With a save path, [skip_existing] and a file at the derived local
    path: [fetch_image_details] issues no request and leaves the cache as it
    is, whatever the file holds; when the file measures [size], all it does
    is test and open the file, it returns the URL with that size, its
    resolution and the local path, and doing it again gives the same
    detail. *)
Theorem cache_hit_measures_without_request (u : string)
    (save_path : option string) (w : world) (b : bytes) :
  truthy save_path = true ->
  let path := path_join (get save_path "") (basename u) in
  lookup path (files w) = Some b ->
  (exists evs,
      snd (fetch_image_details u save_path true w) = record w evs
      /\ Forall (fun ev => ~ is_request ev) evs)
  /\ (forall size,
      Image_open b = Some size ->
      let detail := mkImageDetail u size (fst size * snd size) (Some path) in
      fetch_image_details u save_path true w =
        (Ok (Some detail), record w [EvExists path; EvOpenImage path])
      /\ fst (fetch_image_details u save_path true
                (snd (fetch_image_details u save_path true w))) =
         Ok (Some detail)).
Proof.
  intros Hset path Hfile. split.
  - destruct (Image_open b) as [size|] eqn:Hsize.
    + rewrite (cache_hit u save_path w b size Hset Hfile Hsize).
      eexists. split; [reflexivity|]. repeat constructor; exact (fun H => H).
    + rewrite (cache_unreadable u save_path w b Hset Hfile Hsize).
      eexists. split; [reflexivity|]. repeat constructor; exact (fun H => H).
  - intros size Hsize detail.
    pose proof (cache_hit u save_path w b size Hset Hfile Hsize) as H.
    fold path in H. fold detail in H.
    split; [exact H|]. rewrite H. simpl snd.
    now rewrite (cache_hit u save_path (record w _) b size Hset Hfile Hsize).
Qed.

End OneImage.

Lemma cache_hit_measures_without_request_witness :
  fetch_image_details (E := two_albums) "http://img/1.jpg" (Some "out/A/a1")
                      true cached_world =
  (Ok (Some (mkImageDetail "http://img/1.jpg" (10, 10) 100
                           (Some "out/A/a1/1.jpg"))),
   record cached_world [EvExists "out/A/a1/1.jpg"; EvOpenImage "out/A/a1/1.jpg"]).
Proof.
  refine (proj1 (proj2 (cache_hit_measures_without_request (E := two_albums)
                          "http://img/1.jpg" (Some "out/A/a1") cached_world
                          [Byte.x0a; Byte.x0a] _ _)
                       (10, 10) _));
    reflexivity.
Defined.

(** A cached file that is not an image: the conditions of the cache hit
    hold, and no dimensions are returned; the file is tested and opened at
    each of the five attempts, 15 seconds are slept, and the exception of
    the last attempt is raised. *)
Lemma unreadable_cached_file_is_not_measured :
  truthy (Some "out/A/a1") = true
  /\ lookup (path_join "out/A/a1" (basename "http://img/1.jpg"))
            (files broken_cache) = Some [Byte.x3c]
  /\ @Image_open two_albums [Byte.x3c] = None
  /\ fetch_image_details (E := two_albums) "http://img/1.jpg" (Some "out/A/a1")
                         true broken_cache =
     (Raise UnidentifiedImageError,
      record broken_cache
        [EvExists "out/A/a1/1.jpg"; EvOpenImage "out/A/a1/1.jpg"; EvSleep 1;
         EvExists "out/A/a1/1.jpg"; EvOpenImage "out/A/a1/1.jpg"; EvSleep 2;
         EvExists "out/A/a1/1.jpg"; EvOpenImage "out/A/a1/1.jpg"; EvSleep 4;
         EvExists "out/A/a1/1.jpg"; EvOpenImage "out/A/a1/1.jpg"; EvSleep 8;
         EvExists "out/A/a1/1.jpg"; EvOpenImage "out/A/a1/1.jpg"]).
Proof. repeat split. Qed.

Section NoSavePath.

Context {E : External}.

(** Without a save path the function is its [try] block at attempt 1. *)
Lemma fetch_image_details_unsaved (u : string) (save_path : option string)
    (skip_existing : bool) (w : world) :
  truthy save_path = false ->
  fetch_image_details u save_path skip_existing w =
  match session_get u [] 1 with
  | Raised e =>
      (Ok None,
       record w [EvGet u [] 1; EvLog ERROR (FailedImageDetails u (NetError e))])
  | Response _ body =>
      match Image_open body with
      | Some size =>
          (Ok (Some (mkImageDetail u size (fst size * snd size) None)),
           record w [EvGet u [] 1])
      | None =>
          (Ok None,
           record w [EvGet u [] 1;
                     EvLog ERROR (FailedImageDetails u UnidentifiedImageError)])
      end
  end.
Proof.
  intros Hunset. unfold fetch_image_details, retry.
  destruct (fetch_image_details_try_returns u None skip_existing 1 w) as (r & w' & Hr).
  assert (Hbody : fetch_image_details_body u save_path skip_existing 1 w = (Ok r, w'))
    by (unfold fetch_image_details_body; now rewrite Hunset).
  rewrite (retrying_returns _ _ _ _ _ _ _ _ Hbody). rewrite <- Hr.
  unfold fetch_image_details_try, try_except, bind, http_get.
  destruct (session_get u [] 1) as [e|status body]; simpl.
  - unfold bind, log, emit, ret. now rewrite record_record.
  - destruct (Image_open body) as [size|]; simpl.
    + reflexivity.
    + unfold raise, bind, log, emit, ret. now rewrite record_record.
Qed.

(** C10.  Without a save path (absent or empty), [fetch_image_details] does
    the same whatever [skip_existing] is: it issues the request at once, no
    event tests, opens or writes a file, the cache is left as it was, and a
    detail it returns has no local path. *)
Theorem skip_existing_is_ignored_without_save_path (u : string)
    (save_path : option string) (skip_existing : bool) (w : world) :
  truthy save_path = false ->
  fetch_image_details u save_path skip_existing w =
    fetch_image_details u save_path (negb skip_existing) w
  /\ (exists evs,
        snd (fetch_image_details u save_path skip_existing w) =
          record w (EvGet u [] 1 :: evs)
        /\ Forall (fun ev => exists e, ev = EvLog ERROR (FailedImageDetails u e)) evs)
  /\ files (snd (fetch_image_details u save_path skip_existing w)) = files w
  /\ (forall d, fst (fetch_image_details u save_path skip_existing w) = Ok (Some d) ->
                local_path d = None).
Proof.
  intros Hunset.
  rewrite (fetch_image_details_unsaved u save_path (negb skip_existing) w Hunset).
  rewrite (fetch_image_details_unsaved u save_path skip_existing w Hunset).
  split; [reflexivity|].
  destruct (session_get u [] 1) as [e|status body];
    [|destruct (Image_open body) as [size|]]; simpl.
  - split; [|split]; [eexists; split; [reflexivity|] | reflexivity | discriminate].
    repeat constructor. now eexists.
  - split; [|split]; [eexists; split; [reflexivity|] | reflexivity |].
    + constructor.
    + intros d [= <-]. reflexivity.
  - split; [|split]; [eexists; split; [reflexivity|] | reflexivity | discriminate].
    repeat constructor. now eexists.
Qed.

End NoSavePath.

Lemma skip_existing_is_ignored_without_save_path_witness :
  fetch_image_details (E := two_albums) "http://img/1.jpg" None true cached_world =
  fetch_image_details (E := two_albums) "http://img/1.jpg" None false cached_world.
Proof.
  refine (proj1 (skip_existing_is_ignored_without_save_path (E := two_albums)
                   "http://img/1.jpg" None true cached_world _)).
  reflexivity.
Defined.

(* ------------------------------------------------------------------ *)
(** ** Ranking *)

Lemma bind_ok_inv {A B : Type} (m : M A) (k : A -> M B) (w w' : world) (b : B) :
  bind m k w = (Ok b, w') ->
  exists a w1, m w = (Ok a, w1) /\ k a w1 = (Ok b, w').
Proof.
  unfold bind. destruct (m w) as [[a|e] w1]; intros H; [|discriminate].
  now exists a, w1.
Qed.

Lemma insert_desc_perm (d : ImageDetail) (l : list ImageDetail) :
  Permutation (insert_desc d l) (d :: l).
Proof.
  induction l as [|x l IH]; simpl; [reflexivity|].
  destruct (resolution x <=? resolution d); [reflexivity|].
  rewrite IH. apply perm_swap.
Qed.

Lemma sorted_perm (l : list ImageDetail) :
  Permutation (sorted_by_resolution_desc l) l.
Proof.
  induction l as [|d l IH]; simpl; [reflexivity|].
  rewrite insert_desc_perm. now constructor.
Qed.





Section Ranking.

Context {E : External}.


End Ranking.

(* ------------------------------------------------------------------ *)
(** ** Computations that only talk to the network *)

Lemma oblivious_run {A : Type} (m : M A) (w : world) :
  oblivious m -> m w = (value_of m, record w (events_of m)).
Proof. intros H. apply H. Qed.

Lemma oblivious_ret {A : Type} (a : A) : oblivious (ret a).
Proof. intros w. unfold ret. simpl. now rewrite record_nil. Qed.

Lemma oblivious_raise {A : Type} (e : exn) : oblivious (@raise A e).
Proof. intros w. unfold raise. simpl. now rewrite record_nil. Qed.

Lemma oblivious_emit (ev : event) : oblivious (emit ev).
Proof. intros w. reflexivity. Qed.

Lemma oblivious_bind {A B : Type} (m : M A) (k : A -> M B) :
  oblivious m -> (forall a, oblivious (k a)) -> oblivious (bind m k).
Proof.
  intros Hm Hk w. unfold bind.
  rewrite (Hm w). destruct (m w0) as [[a|e] wm]; simpl.
  - rewrite (Hk a (record w _)), (Hk a wm). simpl.
    now rewrite record_record.
  - reflexivity.
Qed.

Lemma oblivious_try_except {A : Type} (body : M A) (handles : exn -> bool)
    (handler : exn -> M A) :
  oblivious body -> (forall e, oblivious (handler e)) ->
  oblivious (try_except body handles handler).
Proof.
  intros Hb Hh w. unfold try_except.
  rewrite (Hb w). destruct (body w0) as [[a|e] wb]; simpl.
  - reflexivity.
  - destruct (handles e); [|reflexivity].
    rewrite (Hh e (record w _)), (Hh e wb). simpl.
    now rewrite record_record.
Qed.

Lemma oblivious_retrying {A : Type} (wait : nat -> Z) (reraise : bool)
    (fn : nat -> M A) :
  (forall a, oblivious (fn a)) ->
  forall left a, oblivious (retrying wait reraise left a fn).
Proof.
  intros Hfn. induction left as [|left IH]; intros a w; simpl.
  - rewrite (Hfn a w). destruct (fn a w0) as [[x|e] wf]; reflexivity.
  - rewrite (Hfn a w). destruct (fn a w0) as [[x|e] wf]; simpl; [reflexivity|].
    rewrite (IH (S a) (record (record w _) _)).
    rewrite (IH (S a) (record wf _)). simpl.
    now rewrite !record_record, <- app_assoc.
Qed.

Lemma oblivious_for_each {A B : Type} (f : A -> M B) (xs : list A) :
  (forall x, In x xs -> oblivious (f x)) -> oblivious (for_each f xs).
Proof.
  induction xs as [|x xs IH]; intros H; simpl.
  - apply oblivious_ret.
  - apply oblivious_bind; [apply H; now left|]. intros r.
    apply oblivious_bind; [apply IH; intros y Hy; apply H; now right|].
    intros rs. apply oblivious_ret.
Qed.

Section NetworkOnly.

Context {E : External}.

Lemma oblivious_http_get (u : string) (p : params) (a : nat) :
  oblivious (http_get u p a).
Proof.
  intros w. unfold http_get. destruct (session_get u p a); reflexivity.
Qed.

Lemma oblivious_fetch_data (u : string) (p : params) : oblivious (fetch_data u p).
Proof.
  apply oblivious_retrying. intros a. unfold fetch_data_body.
  apply oblivious_bind; [apply oblivious_http_get|]. intros [status body]. simpl.
  destruct (status =? 200).
  - unfold json_of. destruct (response_json body);
      [apply oblivious_ret|apply oblivious_raise].
  - apply oblivious_bind; [apply oblivious_emit|]. intros _. apply oblivious_ret.
Qed.

Lemma oblivious_fetch_release_groups (artist album : string) (offset limit : Z) :
  oblivious (fetch_release_groups artist album offset limit).
Proof.
  apply oblivious_try_except; [apply oblivious_fetch_data|]. intros e.
  apply oblivious_bind; [apply oblivious_emit|]. intros _. apply oblivious_ret.
Qed.

Lemma oblivious_fetch_cover_art_urls (rid : string) :
  oblivious (fetch_cover_art_urls rid).
Proof.
  apply oblivious_try_except.
  - apply oblivious_bind; [apply oblivious_fetch_data|]. intros data.
    apply oblivious_ret.
  - intros e. apply oblivious_ret.
Qed.

End NetworkOnly.

(* ------------------------------------------------------------------ *)
(** ** Completion orders *)

Lemma completion_map {A B : Type} (f : A -> B) (order : list nat) (l : list A) :
  completion order (map f l) = map f (completion order l).
Proof.
  unfold completion. induction order as [|i order IH]; simpl; [reflexivity|].
  rewrite map_app, IH, nth_error_map. now destruct (nth_error l i).
Qed.

Lemma completion_launch_order {A : Type} (l : list A) :
  completion (seq 0 (List.length l)) l = l.
Proof.
  unfold completion. induction l as [|x l IH]; simpl; [reflexivity|].
  f_equal. rewrite <- seq_shift, flat_map_concat_map, map_map.
  rewrite <- flat_map_concat_map. exact IH.
Qed.

Lemma completion_perm {A : Type} (sched : scheduler) (l : list A) :
  fair sched -> Permutation (completion (sched (List.length l)) l) l.
Proof.
  intros Hfair.
  transitivity (completion (seq 0 (List.length l)) l).
  - unfold completion. apply Permutation_flat_map, Hfair.
  - now rewrite completion_launch_order.
Qed.

Lemma fair_launch_order : fair launch_order.
Proof. intros n. reflexivity. Qed.

Lemma fair_reverse_order : fair reverse_order.
Proof. intros n. symmetry. apply Permutation_rev. Qed.

Lemma for_each_map {A B C : Type} (g : A -> B) (f : B -> M C) (xs : list A) :
  for_each f (map g xs) = for_each (fun x => f (g x)) xs.
Proof.
  induction xs as [|x xs IH]; simpl; [reflexivity|]. now rewrite IH.
Qed.

Lemma as_completed_map {A B : Type} (sched : scheduler) (f : A -> M B)
    (xs : list A) :
  as_completed sched (map f xs) =
  for_each f (completion (sched (List.length xs)) xs).
Proof.
  unfold as_completed. rewrite length_map, completion_map.
  apply (for_each_map f (fun task => task)).
Qed.

(** A loop whose tasks all return, each adding its own events. *)
Lemma for_each_all_ok {A B : Type} (f : A -> M B) (g : A -> B)
    (ev : A -> list event) (xs : list A) :
  (forall x w, In x xs -> f x w = (Ok (g x), record w (ev x))) ->
  forall w, for_each f xs w = (Ok (map g xs), record w (flat_map ev xs)).
Proof.
  induction xs as [|x xs IH]; intros H w; simpl.
  - unfold ret. now rewrite record_nil.
  - unfold bind. rewrite (H x w) by now left.
    rewrite IH by (intros y w1 Hy; apply H; now right).
    unfold ret. now rewrite record_record.
Qed.

Lemma list_sum_perm (l l' : list nat) :
  Permutation l l' -> list_sum l = list_sum l'.
Proof. induction 1; simpl; lia. Qed.

(* ------------------------------------------------------------------ *)
(** ** The release resolver *)

Lemma page_requests_app (t1 t2 : list event) :
  page_requests (t1 ++ t2) = page_requests t1 ++ page_requests t2.
Proof. apply flat_map_app. Qed.

Lemma page_requests_later (t : list event) :
  Forall (after_attempt 1) t -> page_requests t = [].
Proof.
  induction 1 as [|ev t Hev _ IH]; [reflexivity|].
  unfold page_requests in *. simpl. rewrite IH.
  destruct ev as [u p [|[|n]]| | | | | | |]; simpl in *; try reflexivity; lia.
Qed.

Lemma range_length (n : Z) :
  Z.of_nat (1 + List.length (range 100 n 100)) = Z.max 1 (ceil_div n 100).
Proof.
  unfold range, ceil_div. rewrite length_map, length_seq.
  replace (n - 100 + 100 - 1) with (n - 1) by lia.
  replace (n + 100 - 1) with ((n - 1) + 1 * 100) by lia.
  rewrite Z.div_add by lia.
  pose proof (Z.div_pos (n - 1) 100).
  pose proof (Z.div_lt_upper_bound (n - 1) 100 0).
  destruct (Z.le_gt_cases 1 n); lia.
Qed.

Section Resolver.

Context {E : External}.

Lemma fetch_data_events (u : string) (p : params) (left : nat) :
  forall a w, exists evs,
    snd (retrying retry_wait true left a (fetch_data_body u p) w) =
      record w (EvGet u p a :: evs)
    /\ Forall (after_attempt a) evs.
Proof.
  assert (Hbody : forall a w, exists r evs,
             fetch_data_body u p a w = (r, record w (EvGet u p a :: evs))
             /\ Forall (after_attempt a) evs).
  { intros a w. unfold fetch_data_body, bind, http_get.
    destruct (session_get u p a) as [e|status body]; simpl.
    - now exists (Raise (NetError e)), [].
    - destruct (status =? 200).
      + unfold json_of, ret, raise. destruct (response_json body).
        * now eexists _, [].
        * now eexists _, [].
      + unfold bind, log, emit, ret. rewrite record_record. simpl.
        eexists _, [_]. split; [reflexivity|]. now repeat constructor. }
  induction left as [|left IH]; intros a w;
    destruct (Hbody a w) as (r & evs & Hr & Hevs); simpl; rewrite Hr.
  - destruct r; now exists evs.
  - destruct r as [x|e]; [now exists evs|].
    destruct (IH (S a) (record (record w (EvGet u p a :: evs))
                               [EvSleep (retry_wait a)]))
      as (evs' & Hs & Hevs').
    exists (evs ++ EvSleep (retry_wait a) :: EvGet u p (S a) :: evs').
    split.
    + unfold emit. rewrite Hs, !record_record. reflexivity.
    + apply Forall_app. split; [exact Hevs|].
      constructor; [exact I|]. constructor; [simpl; lia|].
      eapply Forall_impl; [|exact Hevs'].
      intros [] Hev; simpl in *; try exact I; lia.
Qed.

(** A call of [fetch_release_groups] asks for its page once at attempt 1. *)
Lemma page_requests_of_page (artist album : string) (offset : Z) :
  page_requests (events_of (fetch_release_groups artist album offset 100)) =
  [offset].
Proof.
  unfold events_of, fetch_release_groups, try_except, fetch_data, retry.
  destruct (fetch_data_events release_group_url
              (release_group_params artist album offset 100)
              (max_attempts - 1) 1 w0) as (evs & Hs & Hevs).
  destruct (retrying _ _ _ _ _ w0) as [[x|e] w1]; simpl in Hs; subst w1.
  - simpl. now rewrite (page_requests_later evs Hevs).
  - destruct (is_RetryError e).
    + unfold bind, log, emit, ret. simpl.
      change (EvGet ?u ?p 1 :: ?l ++ ?m) with ([EvGet u p 1] ++ l ++ m).
      rewrite !page_requests_app, (page_requests_later evs Hevs). reflexivity.
    + simpl. now rewrite (page_requests_later evs Hevs).
Qed.

Lemma page_requests_of_pages (artist album : string) (offsets : list Z) :
  page_requests
    (flat_map (fun o => events_of (fetch_release_groups artist album o 100))
              offsets) = offsets.
Proof.
  induction offsets as [|o offsets IH]; simpl; [reflexivity|].
  now rewrite page_requests_app, page_requests_of_page, IH.
Qed.

(** The resolver when no page raises: the first page, then the others in
    completion order. *)
Lemma get_release_groups_run (sched : scheduler) (artist album : string)
    (w : world) (p0 : JsonObject) :
  page_result artist album 0 = Ok p0 ->
  let offsets := range 100 (get (count p0) 0) 100 in
  let completed := completion (sched (List.length offsets)) offsets in
  (forall o, In o completed -> exists p, page_result artist album o = Ok p) ->
  get_release_groups sched artist album w =
  (Ok (flat_map (page_groups artist album) (0 :: completed)),
   record w (flat_map
               (fun o => events_of (fetch_release_groups artist album o 100))
               (0 :: completed))).
Proof.
  intros H0 offsets completed Hpages.
  unfold get_release_groups, bind.
  rewrite (oblivious_run _ w (oblivious_fetch_release_groups artist album 0 100)).
  change (value_of (fetch_release_groups artist album 0 100))
    with (page_result artist album 0).
  rewrite H0. fold offsets. rewrite as_completed_map. fold completed.
  rewrite (for_each_all_ok
             (fun o => fetch_release_groups artist album o 100)
             (fun o => match page_result artist album o with
                       | Ok p => p
                       | Raise _ => empty_dict
                       end)
             (fun o => events_of (fetch_release_groups artist album o 100))).
  - unfold ret. simpl. rewrite record_record. f_equal. f_equal.
    unfold page_groups at 1. rewrite H0. f_equal.
    rewrite flat_map_concat_map, map_map, <- flat_map_concat_map.
    apply flat_map_ext. intros o. unfold page_groups.
    now destruct (page_result artist album o).
  - intros o w1 Ho.
    rewrite (oblivious_run _ w1 (oblivious_fetch_release_groups artist album o 100)).
    change (value_of (fetch_release_groups artist album o 100))
      with (page_result artist album o).
    destruct (Hpages o Ho) as [p ->]. reflexivity.
Qed.

(** C5.  The catalog reports [n] matches on the first page and no page
    exhausts its retries: the resolver returns; it has asked once for the
    page at offset 0 and once for each offset 100, 200, ... below [n], which
    makes [max(1, ceil(n/100))] pages, that is [ceil(n/100)] when there is a
    match; and the merged list is as long as the contributions of these
    pages together. *)
Theorem resolver_pages_and_merged_count (sched : scheduler)
    (artist album : string) (w : world) (p0 : JsonObject) (n : Z) :
  fair sched ->
  page_result artist album 0 = Ok p0 ->
  count p0 = Some n ->
  (forall o, In o (range 100 n 100) ->
             exists p, page_result artist album o = Ok p) ->
  exists rgs evs,
    get_release_groups sched artist album w = (Ok rgs, record w evs)
    /\ Permutation (page_requests evs) (0 :: range 100 n 100)
    /\ Z.of_nat (List.length (page_requests evs)) = Z.max 1 (ceil_div n 100)
    /\ (1 <= n -> Z.of_nat (List.length (page_requests evs)) = ceil_div n 100)
    /\ List.length rgs =
       list_sum (map (contribution artist album) (0 :: range 100 n 100)).
Proof.
  intros Hfair H0 Hcount Hpages.
  pose proof (completion_perm sched (range 100 n 100) Hfair) as Hperm.
  pose proof (get_release_groups_run sched artist album w p0 H0) as Hrun.
  rewrite Hcount in Hrun. simpl get in Hrun.
  eexists _, _. split.
  { apply Hrun. intros o Ho. apply Hpages.
    eapply Permutation_in; [exact Hperm|exact Ho]. }
  rewrite page_requests_of_pages.
  assert (Hlen : Z.of_nat (List.length
                   (0 :: completion (sched (List.length (range 100 n 100)))
                                    (range 100 n 100))) =
                 Z.max 1 (ceil_div n 100)).
  { simpl List.length. rewrite (Permutation_length Hperm).
    exact (range_length n). }
  split; [now constructor|]. split; [exact Hlen|]. split.
  - intros Hn. rewrite Hlen.
    assert (1 <= ceil_div n 100); [|lia].
    unfold ceil_div. apply Z.div_le_lower_bound; lia.
  - rewrite length_flat_map. apply list_sum_perm.
    apply Permutation_map. now constructor.
Qed.

End Resolver.

Lemma resolver_pages_and_merged_count_witness :
  exists rgs evs,
    get_release_groups (E := three_pages) reverse_order "A" "a1" w0 =
      (Ok rgs, record w0 evs)
    /\ Permutation (page_requests evs) [0; 100; 200]
    /\ Z.of_nat (List.length (page_requests evs)) = 3
    /\ List.length rgs = 2%nat.
Proof.
  destruct (resolver_pages_and_merged_count (E := three_pages) reverse_order
              "A" "a1" w0 (page_of 250 "g1" "r1") 250 fair_reverse_order
              eq_refl eq_refl) as (rgs & evs & Hrun & Hperm & Hlen & _ & Hsum).
  - intros o Ho. vm_compute in Ho.
    destruct Ho as [<-|[<-|[]]]; eexists; vm_compute; reflexivity.
  - exists rgs, evs. split; [exact Hrun|]. split; [exact Hperm|].
    split; [exact Hlen|exact Hsum].
Defined.

(** With no match the catalog is still asked once, and [ceil(0/100) = 0]. *)
Lemma resolver_asks_once_for_zero_matches :
  fst (fetch_release_groups (E := no_matches) "A" "a1" 0 100 w0) =
    Ok (mkJson (Some 0) (Some []) None)
  /\ page_requests
       (trace (snd (get_release_groups (E := no_matches) launch_order
                      "A" "a1" w0))) = [0]
  /\ ~ (Z.of_nat
          (List.length
             (page_requests
                (trace (snd (get_release_groups (E := no_matches) launch_order
                               "A" "a1" w0))))) = ceil_div 0 100).
Proof.
  split; [|split]; [vm_compute; reflexivity .. |].
  vm_compute. discriminate.
Qed.

(* ------------------------------------------------------------------ *)
(** ** Albums without candidates *)

Lemma completion_In {A : Type} (order : list nat) (l : list A) (x : A) :
  In x (completion order l) -> In x l.
Proof.
  unfold completion. rewrite in_flat_map. intros (i & _ & Hx).
  destruct (nth_error l i) as [y|] eqn:Hy; [|contradiction].
  destruct Hx as [<-|[]]. eapply nth_error_In, Hy.
Qed.

Lemma completion_nil {A : Type} (order : list nat) :
  completion order (@nil A) = [].
Proof.
  unfold completion. induction order as [|i order IH]; simpl; [reflexivity|].
  rewrite IH. now destruct i.
Qed.

Lemma oblivious_as_completed {A : Type} (sched : scheduler) (tasks : list (M A)) :
  (forall task, In task tasks -> oblivious task) ->
  oblivious (as_completed sched tasks).
Proof.
  intros H. apply oblivious_for_each. intros task Htask.
  eapply H, completion_In, Htask.
Qed.

Lemma oblivious_files {A : Type} (m : M A) (w : world) :
  oblivious m -> files (snd (m w)) = files w.
Proof. intros H. now rewrite (H w). Qed.

Section EarlyTermination.

Context {E : External}.

Lemma oblivious_get_release_groups (sched : scheduler) (artist album : string) :
  oblivious (get_release_groups sched artist album).
Proof.
  unfold get_release_groups.
  apply oblivious_bind; [apply oblivious_fetch_release_groups|]. intros initial.
  apply oblivious_bind; [|intros results; apply oblivious_ret].
  apply oblivious_as_completed. intros task Htask.
  apply in_map_iff in Htask as (o & <- & _).
  apply oblivious_fetch_release_groups.
Qed.

Lemma oblivious_get_cover_art_urls (sched : scheduler) (release_ids : list string) :
  oblivious (get_cover_art_urls sched release_ids).
Proof.
  unfold get_cover_art_urls. apply oblivious_as_completed. intros task Htask.
  apply in_map_iff in Htask as (rid & <- & _).
  apply oblivious_fetch_cover_art_urls.
Qed.

Lemma no_release_group_ends_album (scheds : Schedulers) (artist album : string)
    (release_type status : option string) (save_imgs : bool) (out_dir : string)
    (skip_existing : bool) (w w1 : world) (found : list ReleaseGroup) :
  get_release_groups (pages_order scheds) artist album w = (Ok found, w1) ->
  filter_release_type release_type found = [] ->
  process_artist_album scheds artist album release_type status save_imgs
                       out_dir skip_existing w =
  (Ok None, record w1 [EvLog ERROR (NoReleaseGroupFound artist album)]).
Proof.
  intros Hfound Hnone. unfold process_artist_album, bind.
  rewrite Hfound, Hnone. reflexivity.
Qed.

Lemma no_cover_art_ends_album (scheds : Schedulers) (artist album : string)
    (release_type status : option string) (save_imgs : bool) (out_dir : string)
    (skip_existing : bool) (w w1 w2 : world) (found : list ReleaseGroup)
    (results : list (string * list string)) :
  get_release_groups (pages_order scheds) artist album w = (Ok found, w1) ->
  filter_release_type release_type found <> [] ->
  get_cover_art_urls (art_order scheds)
    (release_ids_of status (filter_release_type release_type found)) w1 =
    (Ok results, w2) ->
  all_urls results = [] ->
  process_artist_album scheds artist album release_type status save_imgs
                       out_dir skip_existing w =
  (Ok None, record w2 [EvLog ERROR (NoCoverArtFound artist album)]).
Proof.
  intros Hfound Hsome Hart Hnone. unfold process_artist_album, bind.
  rewrite Hfound.
  destruct (filter_release_type release_type found) as [|rg rgs];
    [contradiction|].
  rewrite Hart, Hnone. reflexivity.
Qed.

Lemma filter_release_type_nil (release_type : option string) :
  filter_release_type release_type [] = [].
Proof. unfold filter_release_type. now destruct (truthy release_type). Qed.

(** C7.  An album without candidates: when the catalog reports no match,
    when no release group is left after the filter on the release type, or
    when no cover-art URL is found, [process_artist_album] logs an error and
    returns the empty result at once, having written no file; returning a
    value, it lets [gather] go on with the other albums. *)
Theorem album_without_candidates_ends_early (scheds : Schedulers)
    (artist album : string) (release_type status : option string)
    (save_imgs : bool) (out_dir : string) (skip_existing : bool) (w : world) :
  let album_run :=
    process_artist_album scheds artist album release_type status save_imgs
                         out_dir skip_existing in
  (forall p0,
      page_result artist album 0 = Ok p0 ->
      count p0 = Some 0 ->
      consistent_page p0 ->
      album_run w =
      (Ok None,
       record w (events_of (fetch_release_groups artist album 0 100)
                 ++ [EvLog ERROR (NoReleaseGroupFound artist album)])))
  /\ (forall found w1,
      get_release_groups (pages_order scheds) artist album w = (Ok found, w1) ->
      filter_release_type release_type found = [] ->
      album_run w =
        (Ok None, record w1 [EvLog ERROR (NoReleaseGroupFound artist album)])
      /\ files w1 = files w)
  /\ (forall found w1 results w2,
      get_release_groups (pages_order scheds) artist album w = (Ok found, w1) ->
      filter_release_type release_type found <> [] ->
      get_cover_art_urls (art_order scheds)
        (release_ids_of status (filter_release_type release_type found)) w1 =
        (Ok results, w2) ->
      all_urls results = [] ->
      album_run w =
        (Ok None, record w2 [EvLog ERROR (NoCoverArtFound artist album)])
      /\ files w2 = files w)
  /\ (forall w' (siblings : list (M (option ImageDetail))),
      album_run w = (Ok None, w') ->
      gather (album_run :: siblings) w =
      match gather siblings w' with
      | (Ok rs, w'') => (Ok (None :: rs), w'')
      | (Raise e, w'') => (Raise e, w'')
      end).
Proof.
  intros album_run. split; [|split; [|split]].
  - intros p0 H0 Hcount Hconsistent.
    pose proof (get_release_groups_run (pages_order scheds) artist album w p0 H0)
      as Hrun.
    cbv zeta in Hrun. rewrite Hcount in Hrun. simpl get in Hrun.
    change (range 100 0 100) with (@nil Z) in Hrun.
    rewrite completion_nil in Hrun.
    specialize (Hrun (fun o (H : False) => match H with end)).
    simpl flat_map in Hrun. rewrite !app_nil_r in Hrun.
    unfold album_run.
    rewrite (no_release_group_ends_album _ _ _ _ _ _ _ _ _ _ _ Hrun).
    + now rewrite record_record.
    + unfold page_groups. rewrite H0.
      specialize (Hconsistent 0 Hcount).
      destruct (get (release_groups p0) []); [|simpl in Hconsistent; lia].
      apply filter_release_type_nil.
  - intros found w1 Hfound Hnone. split.
    + now apply no_release_group_ends_album with (found := found).
    + rewrite <- (oblivious_files _ w
                    (oblivious_get_release_groups (pages_order scheds) artist album)).
      now rewrite Hfound.
  - intros found w1 results w2 Hfound Hsome Hart Hnone. split.
    + now apply no_cover_art_ends_album with (found := found) (w1 := w1)
                                             (results := results).
    + rewrite <- (oblivious_files _ w
                    (oblivious_get_release_groups (pages_order scheds) artist album)).
      rewrite Hfound. simpl.
      rewrite <- (oblivious_files _ w1
                    (oblivious_get_cover_art_urls (art_order scheds)
                       (release_ids_of status
                          (filter_release_type release_type found)))).
      now rewrite Hart.
  - intros w' siblings Hrun. unfold gather. simpl. unfold bind.
    rewrite Hrun. now destruct (for_each _ siblings w') as [[rs|e] w''].
Qed.

End EarlyTermination.

Lemma album_without_candidates_ends_early_witness :
  process_artist_album (E := no_matches) in_launch_order "A" "a1" None None
                       true "out" true w0 =
  (Ok None,
   record w0 [EvGet release_group_url (release_group_params "A" "a1" 0 100) 1;
              EvLog ERROR (NoReleaseGroupFound "A" "a1")]).
Proof.
  refine (proj1 (album_without_candidates_ends_early (E := no_matches)
                   in_launch_order "A" "a1" None None true "out" true w0)
                (mkJson (Some 0) (Some []) None) _ _ _).
  - vm_compute. reflexivity.
  - reflexivity.
  - intros n Hn. injection Hn as <-. simpl. lia.
Defined.

(* ------------------------------------------------------------------ *)
(** ** Ranking and completion order *)







(** The sort is stable: images of one resolution stay in input order. *)
Lemma sorted_stable (r : Z) (l : list ImageDetail) :
  filter (fun d => resolution d =? r) (sorted_by_resolution_desc l) =
  filter (fun d => resolution d =? r) l.
Proof.
  induction l as [|d l IH]; simpl; [reflexivity|]. rewrite <- IH.
  generalize (sorted_by_resolution_desc l). clear IH. intros s.
  induction s as [|x s IHs]; simpl; [reflexivity|].
  destruct (Z.leb_spec (resolution x) (resolution d)); simpl; [reflexivity|].
  rewrite IHs.
  destruct (Z.eqb_spec (resolution d) r), (Z.eqb_spec (resolution x) r);
    trivial; lia.
Qed.


Lemma collect_Ok {A : Type} (rs : list (result A)) (l : list A) :
  collect rs = Ok l <-> rs = map Ok l.
Proof.
  revert l. induction rs as [|[a|e] rs IH]; intros l; simpl.
  - split; [intros [= <-]; reflexivity|]. now destruct l.
  - destruct (collect rs) as [l'|e]; split.
    + intros [= <-]. simpl. f_equal. now apply IH.
    + destruct l as [|b l]; [discriminate|]. intros [= -> H].
      apply IH in H. now injection H as ->.
    + discriminate.
    + destruct l as [|b l]; [discriminate|]. intros [= -> H].
      apply IH in H. discriminate.
  - split; [discriminate|]. now destruct l.
Qed.

(* ------------------------------------------------------------------ *)
(** ** The winner of an album *)

Section Winner.

Context {E : External}.



End Winner.


(* ------------------------------------------------------------------ *)
(** ** Image tasks only meet through the cache *)

Lemma lookup_remove_file_other (p q : string) (fs : list (string * bytes)) :
  p <> q -> lookup q (remove_file p fs) = lookup q fs.
Proof.
  intros Hpq. induction fs as [|[p' b] fs IH]; simpl; [reflexivity|].
  destruct (String.eqb_spec p' p) as [->|Hp']; simpl.
  - destruct (String.eqb_spec p q); [contradiction|exact IH].
  - now rewrite IH.
Qed.

Lemma lookup_put_file_other (p q : string) (content : option bytes)
    (fs : list (string * bytes)) :
  p <> q -> lookup q (put_file p content fs) = lookup q fs.
Proof.
  intros Hpq. destruct content as [b|]; simpl.
  - destruct (String.eqb_spec p q); [contradiction|reflexivity].
  - now apply lookup_remove_file_other.
Qed.

Lemma combine_map_r {A B : Type} (g : A -> B) (l : list A) :
  combine l (map g l) = map (fun x => (x, g x)) l.
Proof. induction l as [|x l IH]; simpl; [reflexivity|now rewrite IH]. Qed.

Section ImageTasks.

Context {E : External}.

(** One attempt writes at most the cached file of its URL, and nothing when
    it raises. *)
Lemma body_files (u : string) (save_path : option string)
    (skip_existing : bool) (a : nat) (w : world) :
  (forall q, cache_path save_path u <> Some q ->
             lookup q (files (snd (fetch_image_details_body u save_path
                                     skip_existing a w))) =
             lookup q (files w))
  /\ (forall e, fst (fetch_image_details_body u save_path skip_existing a w) =
                Raise e ->
                files (snd (fetch_image_details_body u save_path
                              skip_existing a w)) = files w).
Proof.
  run_body. unfold record. split.
  - intros q Hq.
    destruct (truthy save_path); [|split_cases; reflexivity].
    assert (Hne : path_join (get save_path "") (basename u) <> q)
      by (intros Heq; apply Hq; now rewrite Heq).
    set (p := path_join (get save_path "") (basename u)) in *.
    split_cases; rewrite ?lookup_put_file_other by exact Hne;
      try reflexivity; try assumption;
      (destruct (String.eqb_spec p q); [contradiction|reflexivity]).
  - intros e.
    set (p := path_join (get save_path "") (basename u)) in *.
    destruct (truthy save_path); split_cases; intros Hr;
      try discriminate; reflexivity.
Qed.

Lemma attempts_files_elsewhere (u : string) (save_path : option string)
    (skip_existing : bool) (q : string) (left : nat) :
  cache_path save_path u <> Some q ->
  forall (a : nat) (w : world),
    lookup q (files (snd (retrying retry_wait true left a
                            (fetch_image_details_body u save_path skip_existing)
                            w))) =
    lookup q (files w).
Proof.
  intros Hq.
  induction left as [|left IH]; intros a w; simpl;
    destruct (body_files u save_path skip_existing a w) as [Hother Hsame];
    destruct (fetch_image_details_body u save_path skip_existing a w)
      as [[r|e] w1]; simpl in *; try now apply Hother.
  rewrite IH. simpl. now apply Hother.
Qed.

(** A call writes at most the cached file of its URL. *)
Lemma task_files_elsewhere (u : string) (save_path : option string)
    (skip_existing : bool) (w : world) (q : string) :
  cache_path save_path u <> Some q ->
  lookup q (files (snd (fetch_image_details u save_path skip_existing w))) =
  lookup q (files w).
Proof. intros Hq. now apply attempts_files_elsewhere. Qed.

(** *** The two parts of a task *)

(** [launch] reads the files and leaves them as they are. *)
Lemma launch_run (u : string) (save_path : option string)
    (skip_existing : bool) (w : world) :
  exists evs,
    launch u save_path skip_existing w =
    (Ok (standing save_path skip_existing (files w) u), record w evs).
Proof.
  unfold launch, standing, cache_path.
  destruct (truthy save_path); [|exists []; unfold ret; now rewrite record_nil].
  set (p := path_join (get save_path "") (basename u)).
  unfold bind, skip_and_exists, path_exists, try_except, open_local_image, ret.
  destruct skip_existing; [|exists []; now rewrite record_nil].
  destruct (lookup p (files w)) as [b|] eqn:Hfile; simpl.
  - rewrite Hfile. destruct (Image_open b) as [size|]; simpl;
      rewrite record_record; now eexists.
  - now eexists.
Qed.

Lemma launch_all (urls : list string) (save_path : option string)
    (skip_existing : bool) :
  forall w, exists evs,
    for_each (fun u => launch u save_path skip_existing) urls w =
    (Ok (map (standing save_path skip_existing (files w)) urls), record w evs).
Proof.
  induction urls as [|u urls IH]; intros w; simpl.
  - exists []. unfold ret. now rewrite record_nil.
  - destruct (launch_run u save_path skip_existing w) as [evs Hu].
    destruct (IH (record w evs)) as [evs' Hurls].
    exists (evs ++ evs'). unfold bind. rewrite Hu, Hurls.
    unfold ret. now rewrite record_record.
Qed.

(** Launching a task and resuming it at once is the call itself. *)
Lemma launch_then_resume (u : string) (save_path : option string)
    (skip_existing : bool) (w : world) :
  fetch_image_details u save_path skip_existing w =
  (s <- launch u save_path skip_existing ;;
   resume u save_path skip_existing s) w.
Proof.
  unfold fetch_image_details, retry, launch.
  destruct (truthy save_path) eqn:Hset.
  - set (p := path_join (get save_path "") (basename u)).
    assert (Hbody : forall a w1,
               fetch_image_details_body u save_path skip_existing a w1 =
               (hit <- skip_and_exists skip_existing p ;;
                if hit then
                  size <- open_local_image p ;;
                  ret (Some (image_detail u size (Some p)))
                else fetch_image_details_try u (Some p) skip_existing a) w1)
      by (intros a w1; unfold fetch_image_details_body; now rewrite Hset).
    unfold bind at 1 2.
    destruct (skip_and_exists skip_existing p w) as [[hit|e] w1] eqn:Hhit.
    + destruct hit.
      * unfold try_except, bind.
        destruct (open_local_image p w1) as [[size|e] w2] eqn:Hopen.
        -- apply retrying_returns. rewrite Hbody. unfold bind.
           now rewrite Hhit, Hopen.
        -- cbn [resume]. unfold bind, emit.
           assert (H1 : fetch_image_details_body u save_path skip_existing 1 w =
                        (Raise e, w2))
             by (rewrite Hbody; unfold bind; now rewrite Hhit, Hopen).
           change (max_attempts - 1)%nat with (S (max_attempts - 2)).
           now rewrite (retrying_sleeps _ _ _ _ _ _ _ _ H1).
      * unfold ret. cbn [resume].
        destruct (fetch_image_details_try_returns u (Some p) skip_existing 1 w1)
          as (r & w2 & Hr).
        rewrite Hr. apply retrying_returns. rewrite Hbody. unfold bind.
        now rewrite Hhit.
    + exfalso. unfold skip_and_exists, path_exists, ret in Hhit.
      destruct skip_existing; discriminate.
  - unfold bind, ret. cbn [resume].
    destruct (fetch_image_details_try_returns u None skip_existing 1 w)
      as (r & w2 & Hr).
    rewrite Hr. apply retrying_returns.
    unfold fetch_image_details_body. now rewrite Hset.
Qed.

(** The stage: the launches, then the tasks in completion order. *)
Lemma find_image_details_run (sched : scheduler) (urls : list string)
    (save_path : option string) (skip_existing : bool) (w : world) :
  exists evs,
    find_image_details sched urls save_path skip_existing w =
    (image_details <-
       for_each (image_task save_path skip_existing (files w))
                (completion (sched (List.length urls)) urls) ;;
     ret (sorted_by_resolution_desc (valid_details image_details)))
      (record w evs).
Proof.
  destruct (launch_all urls save_path skip_existing w) as [evs Hlaunch].
  exists evs. unfold find_image_details. unfold bind at 1. rewrite Hlaunch.
  rewrite combine_map_r, map_map. cbn [fst snd].
  now rewrite as_completed_map.
Qed.

(** *** What a task returns *)

Lemma standing_Retrying (save_path : option string) (skip_existing : bool)
    (fs : list (string * bytes)) (u : string) :
  standing save_path skip_existing fs u = Retrying ->
  truthy save_path = true /\ skip_existing = true
  /\ exists b, lookup (path_join (get save_path "") (basename u)) fs = Some b
               /\ Image_open b = None.
Proof.
  unfold standing, cache_path.
  destruct (truthy save_path); [|discriminate].
  destruct skip_existing; [|discriminate].
  destruct (lookup _ fs) as [b|]; [|discriminate].
  destruct (Image_open b) eqn:Hopen; [discriminate|].
  intros _. repeat split. now exists b.
Qed.

Lemma standing_Requested (save_path : option string) (skip_existing : bool)
    (fs : list (string * bytes)) (u : string) (lp : option string) :
  standing save_path skip_existing fs u = Requested lp ->
  lp = cache_path save_path u
  /\ (forall p, lp = Some p -> skip_existing = true -> lookup p fs = None).
Proof.
  unfold standing. destruct (cache_path save_path u) as [p|].
  - destruct skip_existing.
    + destruct (lookup p fs) as [b|] eqn:Hfile.
      * destruct (Image_open b); discriminate.
      * intros [= <-]. split; [reflexivity|]. now intros ? [= <-] _.
    + intros [= <-]. split; [reflexivity|]. discriminate.
  - intros [= <-]. split; [reflexivity|]. discriminate.
Qed.

Lemma standing_Returned (save_path : option string) (skip_existing : bool)
    (fs : list (string * bytes)) (u : string) (r : option ImageDetail) :
  standing save_path skip_existing fs u = Returned r ->
  exists size,
    r = Some (image_detail u size (cache_path save_path u)).
Proof.
  unfold standing. destruct (cache_path save_path u) as [p|]; [|discriminate].
  destruct skip_existing; [|discriminate].
  destruct (lookup p fs) as [b|]; [|discriminate].
  destruct (Image_open b) as [size|]; [|discriminate].
  intros [= <-]. now exists size.
Qed.

(** A task whose cached file cannot be read raises, as long as the file
    is what it was. *)
Lemma image_task_Retrying (save_path : option string) (skip_existing : bool)
    (fs : list (string * bytes)) (u : string) (w : world) :
  standing save_path skip_existing fs u = Retrying ->
  untouched fs w ->
  fst (image_task save_path skip_existing fs u w) = Raise UnidentifiedImageError.
Proof.
  intros Hs Hfiles. unfold image_task. rewrite Hs.
  apply standing_Retrying in Hs as (Hset & -> & b & Hfile & Hopen).
  apply Hfiles in Hfile.
  unfold resume, bind, emit.
  now rewrite (attempts_cache_unreadable u save_path b _ Hset Hopen 2%nat
                 (record w [EvSleep (retry_wait 1)]) Hfile).
Qed.

(** The [try] block writes at most the file at its local path. *)
Lemma try_files_elsewhere (u : string) (lp : option string)
    (skip_existing : bool) (a : nat) (w : world) (q : string) :
  lp <> Some q ->
  lookup q (files (snd (fetch_image_details_try u lp skip_existing a w))) =
  lookup q (files w).
Proof.
  intros Hq. run_body. unfold record.
  destruct lp as [p|]; [|split_cases; reflexivity].
  assert (Hne : p <> q) by (intros ->; now apply Hq).
  split_cases; rewrite ?lookup_put_file_other by exact Hne;
    try reflexivity; try assumption;
    (destruct (String.eqb_spec p q); [contradiction|reflexivity]).
Qed.

(** What the [try] block returns when the file found after the download
    makes no difference. *)
Lemma try_value (u : string) (lp : option string) (skip_existing : bool)
    (w : world) :
  skip_existing = false
  \/ (forall p, lp = Some p -> lookup p (files w) = None)
  \/ saved_when_decoded u ->
  fst (fetch_image_details_try u lp skip_existing 1 w) = Ok (downloaded u lp).
Proof.
  intros H. unfold downloaded. run_body. unfold record.
  destruct (session_get u [] 1) as [e|status body] eqn:Hget; simpl; [reflexivity|].
  destruct (Image_open body) as [size|] eqn:Hopen; simpl; [|reflexivity].
  destruct lp as [p|]; simpl; [|reflexivity].
  destruct skip_existing; simpl.
  - destruct (lookup p (files w)) as [b|] eqn:Hfile; simpl.
    + destruct H as [H|[H|H]]; [discriminate| |].
      * rewrite (H p eq_refl) in Hfile. discriminate.
      * specialize (H status body size Hget Hopen).
        destruct (Image_save body); [reflexivity|contradiction].
    + destruct (Image_save body); reflexivity.
  - destruct (Image_save body); reflexivity.
Qed.

(** A task that does not retry returns, and writes at most its own file. *)
Lemma image_task_returns (save_path : option string) (skip_existing : bool)
    (fs : list (string * bytes)) (u : string) (w : world) :
  standing save_path skip_existing fs u <> Retrying ->
  exists r w',
    image_task save_path skip_existing fs u w = (Ok r, w')
    /\ (forall q, cache_path save_path u <> Some q ->
                  lookup q (files w') = lookup q (files w))
    /\ (skip_existing = true -> untouched fs w -> untouched fs w').
Proof.
  intros Hs. unfold image_task.
  destruct (standing save_path skip_existing fs u) as [r| |lp] eqn:Hst;
    [|contradiction|].
  - exists r, w. now repeat split.
  - apply standing_Requested in Hst as [Hlp Hnew]. simpl.
    destruct (fetch_image_details_try_returns u lp skip_existing 1 w)
      as (r & w' & Hr).
    exists r, w'. split; [exact Hr|].
    pose proof (try_files_elsewhere u lp skip_existing 1 w) as Hframe.
    rewrite Hr in Hframe. simpl in Hframe. split.
    + intros q Hq. apply Hframe. now rewrite Hlp.
    + intros Hskip Hw q b Hq. rewrite Hframe; [now apply Hw|].
      intros ->. rewrite (Hnew q eq_refl Hskip) in Hq. discriminate.
Qed.

(** *** The tasks one after the other *)

(** A task whose cached file cannot be read ends the loop. *)
Lemma image_tasks_raise (save_path : option string) (skip_existing : bool)
    (fs : list (string * bytes)) (l : list string) :
  forall w,
    untouched fs w ->
    existsb (fun u => is_Retrying (standing save_path skip_existing fs u)) l = true ->
    fst (for_each (image_task save_path skip_existing fs) l w) =
    Raise UnidentifiedImageError.
Proof.
  induction l as [|u l IH]; intros w Hw Hl; [discriminate|].
  simpl in *. unfold bind.
  destruct (standing save_path skip_existing fs u) eqn:Hs.
  - destruct (image_task_returns save_path skip_existing fs u w)
      as (r' & w' & Hr & _ & Hkeep); [rewrite Hs; discriminate|].
    rewrite Hr. simpl in Hl.
    assert (Hskip : skip_existing = true).
    { apply existsb_exists in Hl as (x & _ & Hx).
      destruct (standing save_path skip_existing fs x) eqn:Hsx; try discriminate.
      now apply standing_Retrying in Hsx. }
    specialize (IH w' (Hkeep Hskip Hw) Hl).
    now destruct (for_each _ l w') as [[rs|e] w'']; simpl in *; subst.
  - pose proof (image_task_Retrying save_path skip_existing fs u w Hs Hw) as Hr.
    destruct (image_task save_path skip_existing fs u w) as [[r|e] w'];
      simpl in *; [discriminate|now injection Hr as ->].
  - destruct (image_task_returns save_path skip_existing fs u w)
      as (r' & w' & Hr & _ & Hkeep); [rewrite Hs; discriminate|].
    rewrite Hr. simpl in Hl.
    assert (Hskip : skip_existing = true).
    { apply existsb_exists in Hl as (x & _ & Hx).
      destruct (standing save_path skip_existing fs x) eqn:Hsx; try discriminate.
      now apply standing_Retrying in Hsx. }
    specialize (IH w' (Hkeep Hskip Hw) Hl).
    now destruct (for_each _ l w') as [[rs|e] w'']; simpl in *; subst.
Qed.

(** When no task retries and a file found after a download makes no
    difference, every task returns what it returns alone. *)
Lemma image_tasks_return (save_path : option string) (skip_existing : bool)
    (fs : list (string * bytes)) (l : list string) :
  forall w,
    existsb (fun u => is_Retrying (standing save_path skip_existing fs u)) l = false ->
    skip_existing = false
    \/ (forall u, In u l -> saved_when_decoded u)
    \/ (NoDup (cache_paths save_path l)
        /\ forall u p, In u l -> cache_path save_path u = Some p ->
                       standing save_path skip_existing fs u = Requested (Some p) ->
                       lookup p (files w) = None) ->
    fst (for_each (image_task save_path skip_existing fs) l w) =
    Ok (map (expected save_path skip_existing fs) l).
Proof.
  induction l as [|u l IH]; intros w Hl H; [reflexivity|].
  simpl in Hl. apply Bool.orb_false_iff in Hl as [Hu Hl].
  simpl. unfold bind.
  destruct (image_task_returns save_path skip_existing fs u w)
    as (r & w' & Hr & Hframe & _);
    [intros Hs; rewrite Hs in Hu; discriminate|].
  rewrite Hr.
  assert (Hvalue : r = expected save_path skip_existing fs u).
  { unfold expected. unfold image_task in Hr.
    destruct (standing save_path skip_existing fs u) as [r0| |lp] eqn:Hs;
      [now injection Hr as <- _|discriminate|].
    simpl in Hr.
    pose proof (try_value u lp skip_existing w) as Hv. rewrite Hr in Hv.
    simpl in Hv. apply standing_Requested in Hs as Hlp. destruct Hlp as [Hlp _].
    assert (Hok : Ok r = Ok (downloaded u lp)); [|now injection Hok].
    apply Hv. destruct H as [H|[H|[_ H]]].
    - now left.
    - right; right. apply H. now left.
    - right; left. intros p ->. apply (H u p); [now left|now rewrite <- Hlp|exact Hs]. }
  assert (Hrest : fst (for_each (image_task save_path skip_existing fs) l w') =
                  Ok (map (expected save_path skip_existing fs) l)).
  2: { destruct (for_each _ l w') as [[rs|e] w'']; simpl in *; [|discriminate].
       injection Hrest as ->. now rewrite Hvalue. }
  apply (IH w' Hl).
  - destruct H as [H|[H|[Hnd H]]]; [now left| |].
    + right; left. intros x Hx. apply H. now right.
    + right; right. unfold cache_paths in Hnd. simpl in Hnd.
      split; [now apply NoDup_app_remove_l in Hnd|].
      intros x p Hx Hp Hs. rewrite Hframe; [apply (H x p); trivial; now right|].
      intros Hup. rewrite Hup in Hnd. inversion Hnd as [|? ? Hnotin _]; subst.
      apply Hnotin. apply in_flat_map. exists x. rewrite Hp.
      split; [exact Hx|now left].
Qed.

Lemma cache_paths_perm (save_path : option string) (l1 l2 : list string) :
  Permutation l1 l2 ->
  Permutation (cache_paths save_path l1) (cache_paths save_path l2).
Proof. apply Permutation_flat_map. Qed.

Lemma existsb_perm {A : Type} (f : A -> bool) (l1 l2 : list A) :
  Permutation l1 l2 -> existsb f l1 = existsb f l2.
Proof.
  induction 1 as [|x l1 l2 _ IH|x y l|l1 l2 l3 _ IH1 _ IH2]; simpl.
  - reflexivity.
  - now rewrite IH.
  - now destruct (f x), (f y).
  - now rewrite IH1.
Qed.

(** The value of the stage: the exception of a cached file that cannot be
    read, or else the ranking of what the tasks return alone, in
    completion order. *)
Lemma find_image_details_value (sched : scheduler) (urls : list string)
    (save_path : option string) (skip_existing : bool) (w : world) :
  fair sched ->
  skip_existing = false
  \/ NoDup (cache_paths save_path urls)
  \/ (forall u, In u urls -> saved_when_decoded u) ->
  fst (find_image_details sched urls save_path skip_existing w) =
  if existsb (fun u => is_Retrying (standing save_path skip_existing (files w) u))
             urls
  then Raise UnidentifiedImageError
  else Ok (sorted_by_resolution_desc
             (valid_details
                (map (expected save_path skip_existing (files w))
                     (completion (sched (List.length urls)) urls)))).
Proof.
  intros Hfair H.
  destruct (find_image_details_run sched urls save_path skip_existing w)
    as [evs ->].
  pose proof (completion_perm sched urls Hfair) as Hperm.
  rewrite <- (existsb_perm _ _ _ Hperm). unfold bind.
  destruct (existsb _ (completion _ urls)) eqn:Hretry.
  - rewrite (surjective_pairing (for_each _ _ _)).
    rewrite (image_tasks_raise save_path skip_existing (files w) _ (record w evs));
      trivial.
    now intros q b Hq.
  - rewrite (surjective_pairing (for_each _ _ _)).
    rewrite (image_tasks_return save_path skip_existing (files w) _ (record w evs));
      trivial.
    destruct skip_existing; [|now left].
    destruct H as [H|[H|H]]; [discriminate| |].
    + right; right. split.
      * eapply Permutation_NoDup; [|exact H].
        apply cache_paths_perm. now symmetry.
      * intros u p _ _ Hs. apply standing_Requested in Hs as [_ Hnew].
        simpl. now apply Hnew.
    + right; left. intros u Hu. apply H.
      eapply Permutation_in; [exact Hperm|exact Hu].
Qed.

End ImageTasks.

(* ------------------------------------------------------------------ *)
(** ** Two completion orders *)



Lemma for_each_oblivious {A B : Type} (f : A -> M B) (l : list A) (w : world) :
  (forall x, In x l -> oblivious (f x)) ->
  fst (for_each f l w) = collect (map (fun x => value_of (f x)) l).
Proof.
  revert w. induction l as [|x l IH]; intros w H; [reflexivity|].
  simpl. unfold bind. rewrite (oblivious_run (f x) w) by (apply H; now left).
  destruct (value_of (f x)) as [r|e]; [|reflexivity].
  rewrite <- (IH (record w (events_of (f x))))
    by (intros y Hy; apply H; now right).
  now destruct (for_each f l _) as [[rs|e] w1].
Qed.

Section AnyOrder.

Context {E : External}.




End AnyOrder.




Section AlbumAnyOrder.

Context {E : External}.


End AlbumAnyOrder.

Section CompletionOrder.

Context {E : External}.


End CompletionOrder.



(** Why the images must otherwise have local paths of their own: two URLs
    with the same file name, saved with [skip_existing], the image of the
    first of which cannot be written.  When the first completes first, its
    save raises and it is dropped; when it completes last, it finds the
    file of the other, does not save, and is kept. *)
Lemma shared_local_path_shows_completion_order :
  cache_paths (Some "out") ["http://a/cover.jpg"; "http://b/cover.jpg"] =
    ["out/cover.jpg"; "out/cover.jpg"]
  /\ @Image_save clashing_names [Byte.x05; Byte.x05] = None
  /\ fst (find_image_details (E := clashing_names) launch_order
            ["http://a/cover.jpg"; "http://b/cover.jpg"] (Some "out") true w0) =
     Ok [cover_b]
  /\ fst (find_image_details (E := clashing_names) reverse_order
            ["http://a/cover.jpg"; "http://b/cover.jpg"] (Some "out") true w0) =
     Ok [cover_b; cover_a].
Proof. repeat split. Qed.

(* ================================================================== *)
(** * Further properties of the code *)

(* ------------------------------------------------------------------ *)
(** ** More on the fetch client *)

Lemma slept_app (t1 t2 : list event) : slept (t1 ++ t2) = slept t1 + slept t2.
Proof.
  induction t1 as [|ev t1 IH]; [reflexivity|].
  destruct ev; simpl; rewrite IH; lia.
Qed.

Lemma retry_wait_bounds (n : nat) : 1 <= retry_wait n <= 60.
Proof. unfold retry_wait, wait_exponential. lia. Qed.

Lemma requests_failed_attempts (u : string) (p : params) (k : nat) :
  forall a, requests (failed_attempts u p a k) = k.
Proof.
  unfold failed_attempts.
  induction k as [|k IH]; intros a; simpl; [reflexivity|]. now rewrite IH.
Qed.

Section FetchClientMore.

Context {E : External}.

(** X1.  [fetch_data]: when the first [n - 1] attempts fail on the transport
    and attempt [n] (at most the fifth) is answered with status 200 and a
    JSON body, the call returns that JSON; it has made [n] requests, with
    the waits of the failed attempts between them, and logged nothing. *)
Theorem fetch_data_returns_json_after_failures (u : string) (p : params)
    (w : world) (n : nat) (body : bytes) (j : JsonObject) :
  (1 <= n <= max_attempts)%nat ->
  (forall i, (1 <= i < n)%nat -> exists e, session_get u p i = Raised e) ->
  session_get u p n = Response 200 body ->
  response_json body = Some j ->
  fetch_data u p w =
    (Ok j, record w (failed_attempts u p 1 (n - 1) ++ [EvGet u p n]))
  /\ requests (failed_attempts u p 1 (n - 1) ++ [EvGet u p n]) = n.
Proof.
  intros Hn Hfail Hresp Hj. split.
  - now apply fetch_data_json with (body := body).
  - rewrite requests_app, requests_failed_attempts. simpl. lia.
Qed.

Lemma fetch_data_body_not_json (u : string) (p : params) (a : nat) (w : world)
    (body : bytes) :
  session_get u p a = Response 200 body ->
  response_json body = None ->
  fetch_data_body u p a w = (Raise JSONDecodeError, record w [EvGet u p a]).
Proof.
  intros H Hj. unfold fetch_data_body, bind, http_get, json_of.
  rewrite H. simpl. now rewrite Hj.
Qed.

(** [k] attempts in a row that raise, on the transport or on the body. *)
Lemma fetch_data_raising_attempts (u : string) (p : params) (k : nat) :
  forall (left a : nat) (w : world),
    (forall i, (a <= i < a + k)%nat ->
               exists e, forall w',
                 fetch_data_body u p i w' = (Raise e, record w' [EvGet u p i])) ->
    retrying retry_wait true (k + left) a (fetch_data_body u p) w =
    retrying retry_wait true left (a + k) (fetch_data_body u p)
             (record w (failed_attempts u p a k)).
Proof.
  induction k as [|k IH]; intros left a w H.
  - unfold failed_attempts; simpl. rewrite record_nil, Nat.add_0_r. reflexivity.
  - destruct (H a) as (e & He); [lia|].
    change (S k + left)%nat with (S (k + left)).
    rewrite (retrying_sleeps _ _ _ _ _ _ _ _ (He w)).
    rewrite IH by (intros i Hi; apply H; lia).
    rewrite !record_record. unfold failed_attempts. simpl.
    now rewrite Nat.add_succ_r.
Qed.

(** X2.  [fetch_data]: the soft failure is for the status only.  A response
    with status 200 whose body is not JSON makes [response.json()] raise,
    which is retried like a transport failure; when all five attempts meet
    such a response, the decoding error is raised to the caller after
    five requests and waits of 1, 2, 4 and 8 seconds. *)
Theorem fetch_data_retries_undecodable_body (u : string) (p : params) (w : world) :
  (forall i, (1 <= i <= max_attempts)%nat ->
             exists body, session_get u p i = Response 200 body
                          /\ response_json body = None) ->
  fetch_data u p w =
  (Raise JSONDecodeError,
   record w [EvGet u p 1; EvSleep 1; EvGet u p 2; EvSleep 2;
             EvGet u p 3; EvSleep 4; EvGet u p 4; EvSleep 8;
             EvGet u p 5]).
Proof.
  intros H. unfold fetch_data, retry, max_attempts in *.
  change (5 - 1)%nat with (4 + 0)%nat.
  rewrite fetch_data_raising_attempts.
  - destruct (H 5%nat) as (body & Hb & Hj); [lia|].
    rewrite (retrying_stops _ _ _ _ _ _ _
               (fetch_data_body_not_json u p _ _ body Hb Hj)).
    now rewrite record_record.
  - intros i Hi. destruct (H i) as (body & Hb & Hj); [lia|].
    exists JSONDecodeError. intros w'.
    now apply fetch_data_body_not_json with (body := body).
Qed.

(** A call sleeps between its attempts only: 15 seconds at most. *)
Lemma fetch_data_sleep_bounded (u : string) (p : params) (left : nat) :
  forall a w, exists evs,
    snd (retrying retry_wait true left a (fetch_data_body u p) w) = record w evs
    /\ 0 <= slept evs
    /\ slept evs <= slept (map (fun n => EvSleep (retry_wait n)) (seq a left)).
Proof.
  assert (Hbody : forall a w, exists r evs,
             fetch_data_body u p a w = (r, record w evs) /\ slept evs = 0).
  { intros a w. unfold fetch_data_body, bind, http_get.
    destruct (session_get u p a) as [e|status body]; simpl.
    - now eexists _, _.
    - destruct (status =? 200).
      + unfold json_of, ret, raise. destruct (response_json body); now eexists _, _.
      + unfold bind, log, emit, ret. rewrite record_record. now eexists _, _. }
  induction left as [|left IH]; intros a w;
    destruct (Hbody a w) as (r & evs & Hr & Hevs); simpl; rewrite Hr.
  - exists evs. destruct r; (split; [reflexivity|lia]).
  - pose proof (retry_wait_bounds a) as Hwait.
    destruct (IH (S a) (record (record w evs) [EvSleep (retry_wait a)]))
      as (evs' & Hs & Hlo & Hhi).
    destruct r as [x|e].
    + exists evs. split; [reflexivity|].
      assert (0 <= slept (map (fun n => EvSleep (retry_wait n)) (seq (S a) left))) by lia.
      lia.
    + exists (evs ++ [EvSleep (retry_wait a)] ++ evs'). split.
      * unfold emit. now rewrite Hs, !record_record.
      * rewrite !slept_app. simpl. lia.
Qed.

(** X3.  [fetch_data]: whatever the network does, a call sleeps 15 seconds
    at most in total (1 + 2 + 4 + 8). *)
Theorem fetch_data_sleeps_at_most_15_seconds (u : string) (p : params) (w : world) :
  exists evs,
    snd (fetch_data u p w) = record w evs
    /\ 0 <= slept evs <= 15.
Proof.
  destruct (fetch_data_sleep_bounded u p (max_attempts - 1) 1 w)
    as (evs & Hs & Hlo & Hhi).
  exists evs. split; [exact Hs|]. split; [exact Hlo|exact Hhi].
Qed.

End FetchClientMore.

Lemma fetch_data_returns_json_after_failures_witness :
  fetch_data (E := third_time_lucky) release_group_url
             (release_group_params "A" "a1" 0 100) w0 =
  (Ok (page_of 1 "g1" "r1"),
   record w0 (failed_attempts release_group_url
                (release_group_params "A" "a1" 0 100) 1 2
              ++ [EvGet release_group_url (release_group_params "A" "a1" 0 100) 3])).
Proof.
  refine (proj1 (fetch_data_returns_json_after_failures (E := third_time_lucky)
                   release_group_url (release_group_params "A" "a1" 0 100) w0
                   3 [Byte.x01] (page_of 1 "g1" "r1") _ _ _ _)).
  - unfold max_attempts; lia.
  - intros i Hi. exists ServerTimeoutError.
    assert (i = 1 \/ i = 2)%nat as [-> | ->] by lia; reflexivity.
  - reflexivity.
  - reflexivity.
Defined.

Lemma fetch_data_retries_undecodable_body_witness :
  fst (fetch_data (E := not_json) "https://coverartarchive.org/release/r" [] w0) =
  Raise JSONDecodeError.
Proof.
  rewrite (fetch_data_retries_undecodable_body (E := not_json)
             "https://coverartarchive.org/release/r" [] w0).
  - reflexivity.
  - intros i _. exists [Byte.x3c]. split; reflexivity.
Defined.

(* ------------------------------------------------------------------ *)
(** ** More on the art locator *)

Lemma contains_In (x : string) (xs : list string) :
  contains x xs = true <-> In x xs.
Proof.
  unfold contains. rewrite existsb_exists. split.
  - intros (y & Hy & Heq). apply String.eqb_eq in Heq. now subst.
  - intros H. exists x. split; [exact H|apply String.eqb_refl].
Qed.

Lemma option_string_eqb_eq (a b : option string) :
  option_string_eqb a b = true <-> a = b.
Proof.
  destruct a as [x|], b as [y|]; simpl; try (split; [discriminate|discriminate]).
  - rewrite String.eqb_eq. split; [now intros ->|now intros [= ->]].
  - split; reflexivity.
Qed.

(** X4.  The URLs kept from an [images] array are exactly those of the
    entries that have an [image] key and a [types] list with ["Front"] in
    it; an entry without URL, without types or without ["Front"] gives
    nothing, and the order of the array is kept. *)
Theorem front_urls_are_the_front_covers :
  (forall (imgs : list CoverImage) (u : string),
      In u (front_urls imgs) <->
      exists img ts,
        In img imgs /\ image img = Some u /\ types img = Some ts
        /\ In "Front"%string ts)
  /\ (forall imgs1 imgs2,
        front_urls (imgs1 ++ imgs2) = front_urls imgs1 ++ front_urls imgs2)
  /\ (forall img,
        image img = None \/ types img = None
        \/ (exists ts, types img = Some ts /\ ~ In "Front"%string ts) ->
        front_urls [img] = []).
Proof.
  split; [|split].
  - intros imgs u. unfold front_urls. rewrite in_flat_map. split.
    + intros (img & Himg & Hu).
      destruct (image img) as [u'|] eqn:Hi; [|contradiction].
      destruct (types img) as [[|t ts]|] eqn:Ht; try contradiction.
      destruct (contains "Front" (t :: ts)) eqn:Hc; [|contradiction].
      destruct Hu as [<-|[]]. exists img, (t :: ts).
      repeat split; trivial. now apply contains_In.
    + intros (img & ts & Himg & Hi & Ht & Hin). exists img.
      split; [exact Himg|]. rewrite Hi, Ht.
      destruct ts as [|t ts]; [contradiction|].
      apply contains_In in Hin. rewrite Hin. now left.
  - intros imgs1 imgs2. apply flat_map_app.
  - intros img H. unfold front_urls. cbn [flat_map]. rewrite app_nil_r.
    destruct (image img) as [u|]; [|reflexivity].
    destruct (types img) as [[|t ts]|] eqn:Ht; try reflexivity.
    destruct H as [H|[H|(ts' & Hts & Hnot)]]; try discriminate.
    injection Hts as <-.
    destruct (contains "Front" (t :: ts)) eqn:Hc; [|reflexivity].
    apply contains_In in Hc. contradiction.
Qed.

Lemma front_urls_are_the_front_covers_witness :
  In "http://img/front.jpg"%string (front_urls (get (images mixed_answer) [])).
Proof.
  apply (proj1 front_urls_are_the_front_covers).
  exists (mkCoverImage (Some "http://img/front.jpg") (Some ["Front"])), ["Front"].
  simpl. tauto.
Defined.

Section ArtLocatorMore.

Context {E : External}.

(** X5.  [fetch_cover_art_urls] on the first answer of the archive: a
    status other than 200 gives the release id with no URL, after one
    request and a warning; status 200 with a JSON body gives the release
    id with the front covers of its [images] (none when the key is
    missing), after one request. *)
Theorem fetch_cover_art_urls_on_first_answer (rid : string) (w : world)
    (status : Z) (body : bytes) :
  session_get (cover_art_url rid) [] 1 = Response status body ->
  (status <> 200 ->
   fetch_cover_art_urls rid w =
   (Ok (rid, []),
    record w [EvGet (cover_art_url rid) [] 1;
              EvLog WARNING (FailedFetchStatus (cover_art_url rid) status)]))
  /\ (status = 200 ->
      forall j, response_json body = Some j ->
        fetch_cover_art_urls rid w =
        (Ok (rid, front_urls (get (images j) [])),
         record w [EvGet (cover_art_url rid) [] 1])).
Proof.
  intros Hresp. split.
  - intros Hstatus. unfold fetch_cover_art_urls, try_except, bind.
    assert (Hrun := fetch_data_status_not_200 (cover_art_url rid) [] w 1 status
                      body (conj (le_n 1) (le_S _ _ (le_S _ _ (le_S _ _ (le_S _ _ (le_n 1))))))).
    rewrite Hrun; trivial. intros i Hi; lia.
  - intros -> j Hj. unfold fetch_cover_art_urls, try_except, bind.
    assert (Hrun := fetch_data_json (cover_art_url rid) [] w 1 body j
                      (conj (le_n 1) (le_S _ _ (le_S _ _ (le_S _ _ (le_S _ _ (le_n 1))))))).
    rewrite Hrun; trivial. intros i Hi; lia.
Qed.

Lemma fetch_cover_art_urls_own_id (rid : string) (w w' : world)
    (r : string * list string) :
  fetch_cover_art_urls rid w = (Ok r, w') -> fst r = rid.
Proof.
  rewrite fetch_cover_art_urls_handler_is_dead. unfold bind, ret.
  destruct (fetch_data _ _ w) as [[j|e] w1]; [|discriminate].
  now intros [= <- _].
Qed.

Lemma collected_keys {A B : Type} (g : A -> result B) (key : B -> A)
    (xs : list A) :
  (forall x r, g x = Ok r -> key r = x) ->
  forall rs, map g xs = map Ok rs -> map key rs = xs.
Proof.
  intros Hkey. induction xs as [|x xs IH]; intros [|r rs] H; try discriminate.
  - reflexivity.
  - simpl in H. injection H as Hx Hxs. simpl.
    now rewrite (Hkey x r Hx), (IH rs Hxs).
Qed.

(** X6.  When [get_cover_art_urls] returns, it has one result per release
    id it was given, each under its own id: the ids of the results are the
    given ids in completion order, so a permutation of them. *)
Theorem get_cover_art_urls_one_result_per_id (sched : scheduler)
    (release_ids : list string) (w w' : world)
    (results : list (string * list string)) :
  fair sched ->
  get_cover_art_urls sched release_ids w = (Ok results, w') ->
  map fst results = completion (sched (List.length release_ids)) release_ids
  /\ Permutation (map fst results) release_ids
  /\ List.length results = List.length release_ids.
Proof.
  intros Hfair H.
  assert (Hv : fst (get_cover_art_urls sched release_ids w) =
               collect (map (fun rid => value_of (fetch_cover_art_urls rid))
                            (completion (sched (List.length release_ids))
                                        release_ids))).
  { unfold get_cover_art_urls. rewrite as_completed_map.
    apply for_each_oblivious. intros rid _. apply oblivious_fetch_cover_art_urls. }
  rewrite H in Hv. simpl in Hv. symmetry in Hv. apply collect_Ok in Hv.
  assert (Hids : map fst results =
                 completion (sched (List.length release_ids)) release_ids).
  { apply (collected_keys (fun rid => value_of (fetch_cover_art_urls rid)) fst);
      [|exact Hv].
    intros rid r Hr. unfold value_of in Hr.
    destruct (fetch_cover_art_urls rid w0) as [r' w1] eqn:Hrun.
    simpl in Hr. subst r'. eapply fetch_cover_art_urls_own_id, Hrun. }
  split; [exact Hids|]. split.
  - rewrite Hids. now apply completion_perm.
  - rewrite <- (length_map fst results), Hids.
    apply Permutation_length. now apply completion_perm.
Qed.

End ArtLocatorMore.

Lemma fetch_cover_art_urls_on_first_answer_witness :
  fetch_cover_art_urls (E := mixed_archive) "r1" w0 =
  (Ok ("r1", ["http://img/front.jpg"]),
   record w0 [EvGet (cover_art_url "r1") [] 1]).
Proof.
  refine (proj2 (fetch_cover_art_urls_on_first_answer (E := mixed_archive)
                   "r1" w0 200 [Byte.x03] _) _ mixed_answer _); reflexivity.
Defined.

Lemma get_cover_art_urls_one_result_per_id_witness :
  Permutation
    (map fst [("r2", ["http://img/2.jpg"]); ("r1", ["http://img/1.jpg"])])
    ["r1"; "r2"].
Proof.
  refine (proj1 (proj2 (get_cover_art_urls_one_result_per_id (E := two_albums)
                          reverse_order ["r1"; "r2"] w0 _ _
                          fair_reverse_order _))).
  vm_compute. reflexivity.
Defined.

(* ------------------------------------------------------------------ *)
(** ** More on the filters of an album *)

(** X7.  The filters of [process_artist_album]: with a release type, a
    release group is kept exactly when its [primary-type] is that type,
    and without one (absent or empty) every group is kept; a release id is
    listed exactly when it is the id of a release of one of the groups
    whose [status] is the wanted one, or of any release when no status is
    wanted. *)
Theorem filters_keep_what_matches :
  (forall release_type rgs rg,
      In rg (filter_release_type release_type rgs) <->
      In rg rgs /\ (truthy release_type = false \/ primary_type rg = release_type))
  /\ (forall status rgs rid,
      In rid (release_ids_of status rgs) <->
      exists rg rel,
        In rg rgs /\ In rel (get (releases rg) []) /\ release_id rel = rid
        /\ (truthy status = false \/ release_status rel = status)).
Proof.
  split.
  - intros release_type rgs rg. unfold filter_release_type.
    destruct (truthy release_type).
    + rewrite filter_In, option_string_eqb_eq. intuition discriminate.
    + intuition.
  - intros status rgs rid. unfold release_ids_of. rewrite in_flat_map. split.
    + intros (rg & Hrg & H). apply in_flat_map in H as (rel & Hrel & H).
      exists rg, rel. destruct (truthy status); simpl in H.
      * destruct (option_string_eqb (release_status rel) status) eqn:Heq;
          [|contradiction].
        apply option_string_eqb_eq in Heq.
        destruct H as [<-|[]]. repeat split; trivial. now right.
      * destruct H as [<-|[]]. repeat split; trivial. now left.
    + intros (rg & rel & Hrg & Hrel & <- & Hstatus). exists rg.
      split; [exact Hrg|]. apply in_flat_map. exists rel. split; [exact Hrel|].
      destruct Hstatus as [->|Heq]; simpl; [now left|].
      apply option_string_eqb_eq in Heq. rewrite Heq.
      rewrite Bool.orb_true_r. now left.
Qed.

Lemma filters_keep_what_matches_witness :
  In (mkReleaseGroup "g1" (Some "Album") None)
     (filter_release_type (Some "Album")
        [mkReleaseGroup "g0" (Some "Single") None;
         mkReleaseGroup "g1" (Some "Album") None]).
Proof.
  apply (proj1 filters_keep_what_matches). simpl. tauto.
Defined.

(* ------------------------------------------------------------------ *)
(** ** More on the release resolver *)

Section ResolverMore.

Context {E : External}.

Lemma refused_page (artist album : string) (offset : Z) (status : Z)
    (body : bytes) :
  session_get release_group_url (release_group_params artist album offset 100) 1 =
    Response status body ->
  status <> 200 ->
  forall w,
    fetch_release_groups artist album offset 100 w =
    (Ok empty_dict,
     record w [EvGet release_group_url
                     (release_group_params artist album offset 100) 1;
               EvLog WARNING (FailedFetchStatus release_group_url status)]).
Proof.
  intros Hresp Hstatus w. rewrite fetch_release_groups_handler_is_dead.
  assert (Hrun := fetch_data_status_not_200 release_group_url
                    (release_group_params artist album offset 100) w 1 status body
                    (conj (le_n 1) (le_S _ _ (le_S _ _ (le_S _ _ (le_S _ _ (le_n 1))))))).
  rewrite Hrun; trivial. intros i Hi; lia.
Qed.

(** X8.  When the catalog answers the first page with a status other than
    200, the resolver has no count to go by: it returns no release group
    after that single request, whatever the scheduler, and the album ends
    there with the error that no release group was found. *)
Theorem refused_first_page_ends_the_album (scheds : Schedulers)
    (artist album : string) (release_type status : option string)
    (save_imgs : bool) (out_dir : string) (skip_existing : bool) (w : world)
    (code : Z) (body : bytes) :
  session_get release_group_url (release_group_params artist album 0 100) 1 =
    Response code body ->
  code <> 200 ->
  let asked :=
    [EvGet release_group_url (release_group_params artist album 0 100) 1;
     EvLog WARNING (FailedFetchStatus release_group_url code)] in
  get_release_groups (pages_order scheds) artist album w = (Ok [], record w asked)
  /\ process_artist_album scheds artist album release_type status save_imgs
                          out_dir skip_existing w =
     (Ok None,
      record w (asked ++ [EvLog ERROR (NoReleaseGroupFound artist album)])).
Proof.
  intros Hresp Hcode asked.
  assert (Hpages : get_release_groups (pages_order scheds) artist album w =
                   (Ok [], record w asked)).
  { unfold get_release_groups, bind.
    rewrite (refused_page artist album 0 code body Hresp Hcode w).
    simpl get. change (range 100 0 100) with (@nil Z). simpl map.
    unfold as_completed. simpl List.length. rewrite completion_nil.
    simpl. unfold ret. reflexivity. }
  split; [exact Hpages|].
  rewrite (no_release_group_ends_album _ _ _ _ _ _ _ _ _ _ _ Hpages
             (filter_release_type_nil release_type)).
  now rewrite record_record.
Qed.

(** X9.  When the resolver returns, no page having exhausted its retries,
    the merged list holds the release groups of the first page first, and
    as a whole the release groups of all the pages at offsets 0, 100,
    200, ... below the count, each page's groups once. *)
Theorem merged_groups_are_those_of_the_pages (sched : scheduler)
    (artist album : string) (w : world) (p0 : JsonObject) (n : Z) :
  fair sched ->
  page_result artist album 0 = Ok p0 ->
  count p0 = Some n ->
  (forall o, In o (range 100 n 100) ->
             exists p, page_result artist album o = Ok p) ->
  exists rgs rest w',
    get_release_groups sched artist album w = (Ok rgs, w')
    /\ rgs = get (release_groups p0) [] ++ rest
    /\ Permutation rgs
         (flat_map (page_groups artist album) (0 :: range 100 n 100)).
Proof.
  intros Hfair H0 Hcount Hpages.
  pose proof (completion_perm sched (range 100 n 100) Hfair) as Hperm.
  pose proof (get_release_groups_run sched artist album w p0 H0) as Hrun.
  cbv zeta in Hrun. rewrite Hcount in Hrun. simpl get in Hrun.
  eexists _, _, _. split; [|split].
  - apply Hrun. intros o Ho. apply Hpages.
    eapply Permutation_in; [exact Hperm|exact Ho].
  - cbn [flat_map]. unfold page_groups at 1. rewrite H0. reflexivity.
  - apply Permutation_flat_map. now constructor.
Qed.

End ResolverMore.

Lemma refused_first_page_ends_the_album_witness :
  process_artist_album (E := unavailable) in_launch_order "A" "a1" None None
                       false "out" true w0 =
  (Ok None,
   record w0 [EvGet release_group_url (release_group_params "A" "a1" 0 100) 1;
              EvLog WARNING (FailedFetchStatus release_group_url 503);
              EvLog ERROR (NoReleaseGroupFound "A" "a1")]).
Proof.
  refine (proj2 (refused_first_page_ends_the_album (E := unavailable)
                   in_launch_order "A" "a1" None None false "out" true w0
                   503 [] _ _)).
  - reflexivity.
  - lia.
Defined.

Lemma merged_groups_are_those_of_the_pages_witness :
  exists rgs rest w',
    get_release_groups (E := three_pages) reverse_order "A" "a1" w0 = (Ok rgs, w')
    /\ rgs = get (release_groups (page_of 250 "g1" "r1")) [] ++ rest
    /\ Permutation rgs
         (flat_map (page_groups (E := three_pages) "A" "a1")
                   (0 :: range 100 250 100)).
Proof.
  refine (merged_groups_are_those_of_the_pages (E := three_pages) reverse_order
            "A" "a1" w0 (page_of 250 "g1" "r1") 250 fair_reverse_order
            eq_refl eq_refl _).
  intros o Ho. vm_compute in Ho.
  destruct Ho as [<-|[<-|[]]]; eexists; vm_compute; reflexivity.
Defined.

(* ------------------------------------------------------------------ *)
(** ** More on the image materializer *)

Section RetryInversion.

Context {A : Type} (wait : nat -> Z) (reraise : bool) (fn : nat -> M A).

(** A value that leaves the retry loop is the value of an attempt made from
    a world with the files of the start, when raising attempts write no
    file. *)
Lemma retrying_ok_inv :
  (forall a w e w',
      fn a w = (Raise e, w') ->
      files w' = files w /\ exists evs, trace w' = trace w ++ evs) ->
  forall left a w x w',
    retrying wait reraise left a fn w = (Ok x, w') ->
    exists a' w1 evs,
      fn a' w1 = (Ok x, w') /\ files w1 = files w /\ trace w1 = trace w ++ evs.
Proof.
  intros Hraise. induction left as [|left IH]; intros a w x w'; simpl;
    pose proof (Hraise a w) as Ha; destruct (fn a w) as [[y|e] w1] eqn:Hrun;
    intros H; try discriminate.
  - injection H as <- <-. exists a, w, []. now rewrite app_nil_r.
  - injection H as <- <-. exists a, w, []. now rewrite app_nil_r.
  - destruct (Ha e w1 eq_refl) as (Hfiles & evs & Htrace).
    apply IH in H as (a' & w2 & evs' & Hok & Hfiles' & Htrace').
    exists a', w2, (evs ++ [EvSleep (wait a)] ++ evs').
    split; [exact Hok|]. split.
    + rewrite Hfiles'. simpl. exact Hfiles.
    + rewrite Htrace'. simpl. rewrite Htrace. now rewrite <- !app_assoc.
Qed.

End RetryInversion.

Lemma for_each_ok_inv {A B : Type} (f : A -> M B) (xs : list A) :
  forall w rs w',
    for_each f xs w = (Ok rs, w') ->
    Forall2 (fun x r => exists w1 w2, f x w1 = (Ok r, w2)) xs rs.
Proof.
  induction xs as [|x xs IH]; intros w rs w' H; simpl in H.
  - injection H as <- _. constructor.
  - apply bind_ok_inv in H as (r & w1 & Hx & H).
    apply bind_ok_inv in H as (rs' & w2 & Hxs & H).
    injection H as <- _. constructor; [now exists w, w1|].
    eapply IH, Hxs.
Qed.

Lemma Forall2_In_r {A B : Type} (R : A -> B -> Prop) (xs : list A) (rs : list B)
    (r : B) :
  Forall2 R xs rs -> In r rs -> exists x, In x xs /\ R x r.
Proof.
  induction 1 as [|x r' xs rs Hx _ IH]; intros Hin; [contradiction|].
  destruct Hin as [->|Hin].
  - exists x. split; [now left|exact Hx].
  - destruct (IH Hin) as (x' & Hx' & HR). exists x'. split; [now right|exact HR].
Qed.

Lemma valid_details_In (image_details : list (option ImageDetail))
    (d : ImageDetail) :
  In d (valid_details image_details) <-> In (Some d) image_details.
Proof.
  unfold valid_details. rewrite in_flat_map. split.
  - intros ([d'|] & Hin & Hd); [|contradiction]. destruct Hd as [->|[]]. exact Hin.
  - intros Hin. exists (Some d). split; [exact Hin|now left].
Qed.

Lemma valid_details_length (image_details : list (option ImageDetail)) :
  (List.length (valid_details image_details) <= List.length image_details)%nat.
Proof.
  induction image_details as [|[d|] l IH]; simpl; lia.
Qed.

Section MaterializerMore.

Context {E : External}.

(** A first attempt that downloads, measures and saves. *)
Lemma download_saves (u : string) (save_path : option string)
    (skip_existing : bool) (w : world) (status : Z) (body f : bytes)
    (size : Z * Z) :
  truthy save_path = true ->
  let path := path_join (get save_path "") (basename u) in
  skip_existing = false \/ lookup path (files w) = None ->
  session_get u [] 1 = Response status body ->
  Image_open body = Some size ->
  Image_save body = Some f ->
  let tested := if skip_existing then [EvExists path] else [] in
  fetch_image_details u save_path skip_existing w =
  (Ok (Some (mkImageDetail u size (fst size * snd size) (Some path))),
   mkWorld ((path, f) :: files w)
           (trace w ++ tested ++ [EvGet u [] 1] ++ tested ++ [EvSaveImage path])).
Proof.
  intros Hset path Hmiss Hresp Hsize Hsave tested.
  unfold fetch_image_details, retry. apply retrying_returns.
  unfold fetch_image_details_body. rewrite Hset. fold path.
  unfold fetch_image_details_try, try_except, bind, skip_and_exists,
    path_exists, http_get, save_image, ret, image_detail, record.
  subst tested. destruct skip_existing.
  - destruct Hmiss as [Hmiss|Hmiss]; [discriminate|].
    simpl. rewrite Hmiss. simpl. rewrite Hresp. simpl. rewrite Hsize.
    simpl. rewrite Hmiss. simpl. rewrite Hsave. simpl.
    now rewrite <- !app_assoc.
  - simpl. rewrite Hresp. simpl. rewrite Hsize. simpl. rewrite Hsave. simpl.
    now rewrite <- !app_assoc.
Qed.

(** X10.  [fetch_image_details] with a save path, for a URL that ends in a
    file name, when the cache is not used (no [skip_existing], or no file
    yet at the local path): whatever the status of the response, a body
    that decodes as an image and that [image.save] can write is measured
    and written to [save_path/basename(url)], and the detail carries the
    URL, the size, its product and that path.  The file is tested for
    (before and after the request) only with [skip_existing]. *)
Theorem download_is_measured_and_saved (u : string) (save_path : option string)
    (skip_existing : bool) (w : world) (status : Z) (body f : bytes)
    (size : Z * Z) :
  basename u <> "" ->
  truthy save_path = true ->
  let path := path_join (get save_path "") (basename u) in
  skip_existing = false \/ lookup path (files w) = None ->
  session_get u [] 1 = Response status body ->
  Image_open body = Some size ->
  Image_save body = Some f ->
  let tested := if skip_existing then [EvExists path] else [] in
  fetch_image_details u save_path skip_existing w =
  (Ok (Some (mkImageDetail u size (fst size * snd size) (Some path))),
   mkWorld ((path, f) :: files w)
           (trace w ++ tested ++ [EvGet u [] 1] ++ tested ++ [EvSaveImage path])).
Proof.
  intros _. exact (download_saves u save_path skip_existing w status body f size).
Qed.

(** X11.  Download, then cache hit: after a download that saved the image,
    a second call for the same URL with [skip_existing] makes no request;
    it measures the file that was written and returns its size under the
    same URL and local path. *)
Theorem saved_image_is_found_again (u : string) (save_path : option string)
    (skip_existing : bool) (w : world) (status : Z) (body f : bytes)
    (size size' : Z * Z) :
  truthy save_path = true ->
  let path := path_join (get save_path "") (basename u) in
  skip_existing = false \/ lookup path (files w) = None ->
  session_get u [] 1 = Response status body ->
  Image_open body = Some size ->
  Image_save body = Some f ->
  Image_open f = Some size' ->
  let w1 := snd (fetch_image_details u save_path skip_existing w) in
  fetch_image_details u save_path true w1 =
  (Ok (Some (mkImageDetail u size' (fst size' * snd size') (Some path))),
   record w1 [EvExists path; EvOpenImage path]).
Proof.
  intros Hset path Hmiss Hresp Hsize Hsave Hsize' w1.
  apply cache_hit with (b := f); [exact Hset| |exact Hsize'].
  unfold w1.
  rewrite (download_saves u save_path skip_existing w status
             body f size Hset Hmiss Hresp Hsize Hsave).
  simpl. fold path. now rewrite String.eqb_refl.
Qed.

(** What one attempt returns. *)
Lemma body_result_shape (u : string) (save_path : option string)
    (skip_existing : bool) (a : nat) (w : world) :
  match fetch_image_details_body u save_path skip_existing a w with
  | (Ok (Some d), _) =>
      url d = u
      /\ resolution d = fst (dimensions d) * snd (dimensions d)
      /\ local_path d = cache_path save_path u
  | (Ok None, w') =>
      exists evs e,
        trace w' = trace w ++ evs ++ [EvLog ERROR (FailedImageDetails u e)]
  | (Raise _, _) => True
  end.
Proof.
  run_body. unfold record, image_detail.
  set (p := path_join (get save_path "") (basename u)).
  destruct (truthy save_path); split_cases; simpl; rewrite <- ?app_assoc;
    try exact I; try (repeat split; reflexivity);
    (simpl;
     first [ exists []; eexists; reflexivity
           | eexists [_]; eexists; reflexivity
           | eexists [_; _]; eexists; reflexivity
           | eexists [_; _; _]; eexists; reflexivity
           | eexists [_; _; _; _]; eexists; reflexivity ]).
Qed.

Lemma body_raise_keeps_files (u : string) (save_path : option string)
    (skip_existing : bool) (a : nat) (w : world) (e : exn) (w' : world) :
  fetch_image_details_body u save_path skip_existing a w = (Raise e, w') ->
  files w' = files w /\ exists evs, trace w' = trace w ++ evs.
Proof.
  intros H.
  destruct (body_files u save_path skip_existing a w) as [_ Hfiles].
  destruct (body_requests u save_path skip_existing a w) as (evs & Htrace & _).
  rewrite H in Hfiles, Htrace. simpl in *.
  split; [now apply (Hfiles e)|now exists evs].
Qed.

(** What a returned detail looks like. *)
Lemma returned_detail_shape (u : string) (save_path : option string)
    (skip_existing : bool) (w w' : world) (d : ImageDetail) :
  fetch_image_details u save_path skip_existing w = (Ok (Some d), w') ->
  url d = u
  /\ resolution d = fst (dimensions d) * snd (dimensions d)
  /\ local_path d = cache_path save_path u.
Proof.
  intros H. unfold fetch_image_details, retry in H.
  apply (retrying_ok_inv retry_wait true _
           (body_raise_keeps_files u save_path skip_existing)) in H
    as (a & w1 & evs & Hok & _ & _).
  pose proof (body_result_shape u save_path skip_existing a w1) as Hshape.
  now rewrite Hok in Hshape.
Qed.

(** X12.  What [fetch_image_details] returns: a detail is for the URL it
    was asked, its resolution is the product of its dimensions, and its
    local path is [save_path/basename(url)] when a save path is set and
    null otherwise; the empty result comes with an error record for that
    URL as the last event; and whatever the call does, every file other
    than the one at the local path of the URL is left as it was. *)
Theorem fetch_image_details_result_shape (u : string)
    (save_path : option string) (skip_existing : bool) (w w' : world) :
  (forall d,
      fetch_image_details u save_path skip_existing w = (Ok (Some d), w') ->
      url d = u
      /\ resolution d = fst (dimensions d) * snd (dimensions d)
      /\ local_path d = cache_path save_path u)
  /\ (fetch_image_details u save_path skip_existing w = (Ok None, w') ->
      exists evs e,
        trace w' = trace w ++ evs ++ [EvLog ERROR (FailedImageDetails u e)])
  /\ (forall q,
        cache_path save_path u <> Some q ->
        lookup q (files (snd (fetch_image_details u save_path skip_existing w))) =
        lookup q (files w)).
Proof.
  split; [|split].
  - intros d. apply returned_detail_shape.
  - intros H. unfold fetch_image_details, retry in H.
    apply (retrying_ok_inv retry_wait true _
             (body_raise_keeps_files u save_path skip_existing)) in H
      as (a & w1 & evs & Hok & Hfiles & Htrace).
    pose proof (body_result_shape u save_path skip_existing a w1) as Hshape.
    rewrite Hok in Hshape. destruct Hshape as (evs' & e & Ht).
    exists (evs ++ evs'), e.
    rewrite Ht, Htrace. now rewrite <- !app_assoc.
  - intros q Hq. now apply task_files_elsewhere.
Qed.

(** What a detail returned by the [try] block looks like. *)
Lemma try_result_shape (u : string) (lp : option string) (skip_existing : bool)
    (a : nat) (w w' : world) (d : ImageDetail) :
  fetch_image_details_try u lp skip_existing a w = (Ok (Some d), w') ->
  url d = u
  /\ resolution d = fst (dimensions d) * snd (dimensions d)
  /\ local_path d = lp.
Proof.
  run_body. unfold record, image_detail.
  destruct lp as [p|]; split_cases; intros H; try discriminate;
    injection H as <- _; now repeat split.
Qed.

(** What a detail returned by a task of the stage looks like. *)
Lemma image_task_detail_shape (u : string) (save_path : option string)
    (skip_existing : bool) (fs : list (string * bytes)) (w w' : world)
    (d : ImageDetail) :
  image_task save_path skip_existing fs u w = (Ok (Some d), w') ->
  url d = u
  /\ resolution d = fst (dimensions d) * snd (dimensions d)
  /\ local_path d = cache_path save_path u.
Proof.
  unfold image_task.
  destruct (standing save_path skip_existing fs u) as [r| |lp] eqn:Hs;
    cbn [resume].
  - apply standing_Returned in Hs as [size ->]. unfold ret.
    intros [= <- _]. now repeat split.
  - unfold bind, emit. intros H.
    apply (retrying_ok_inv retry_wait true _
             (body_raise_keeps_files u save_path skip_existing)) in H
      as (a & w1 & evs & Hok & _ & _).
    pose proof (body_result_shape u save_path skip_existing a w1) as Hshape.
    now rewrite Hok in Hshape.
  - apply standing_Requested in Hs as [-> _]. apply try_result_shape.
Qed.

(** X13.  What [find_image_details] returns: every detail is for one of the
    given URLs, with the product of its dimensions as resolution and the
    local path of that URL; there are no more details than URLs. *)
Theorem find_image_details_result_shape (sched : scheduler)
    (urls : list string) (save_path : option string) (skip_existing : bool)
    (w w' : world) (details : list ImageDetail) :
  fair sched ->
  find_image_details sched urls save_path skip_existing w = (Ok details, w') ->
  (forall d, In d details ->
             In (url d) urls
             /\ resolution d = fst (dimensions d) * snd (dimensions d)
             /\ local_path d = cache_path save_path (url d))
  /\ (List.length details <= List.length urls)%nat.
Proof.
  intros Hfair H.
  destruct (find_image_details_run sched urls save_path skip_existing w)
    as [evs Hstage].
  rewrite Hstage in H. clear Hstage.
  apply bind_ok_inv in H as (image_details & w1 & Hrun & H).
  injection H as <- _.
  apply for_each_ok_inv in Hrun.
  split.
  - intros d Hd.
    eapply Permutation_in in Hd; [|apply sorted_perm].
    apply valid_details_In in Hd.
    destruct (Forall2_In_r _ _ _ _ Hrun Hd) as (u & Hu & wa & wb & Htask).
    destruct (image_task_detail_shape u save_path skip_existing (files w)
                wa wb d Htask) as (Hurl & Hres & Hpath).
    rewrite Hurl. split; [eapply completion_In, Hu|]. now split.
  - rewrite (Permutation_length (sorted_perm _)).
    etransitivity; [apply valid_details_length|].
    rewrite <- (Forall2_length Hrun).
    now rewrite (Permutation_length (completion_perm sched urls Hfair)).
Qed.

(** X14.  A cached file that is not an image stops the stage: with
    [skip_existing], when the file at the local path of one of the URLs
    cannot be opened as an image, [find_image_details] raises instead of
    dropping that URL. *)
Theorem unreadable_cached_file_fails_the_stage (sched : scheduler)
    (urls : list string) (save_path : option string) (w : world)
    (u : string) (b : bytes) :
  fair sched ->
  NoDup (cache_paths save_path urls) ->
  truthy save_path = true ->
  In u urls ->
  lookup (path_join (get save_path "") (basename u)) (files w) = Some b ->
  Image_open b = None ->
  exists e, fst (find_image_details sched urls save_path true w) = Raise e.
Proof.
  intros Hfair Hnd Hset Hu Hfile Hsize.
  rewrite (find_image_details_value sched urls save_path true w Hfair
             (or_intror (or_introl Hnd))).
  assert (Hretry : existsb (fun x => is_Retrying (standing save_path true (files w) x))
                           urls = true).
  { apply existsb_exists. exists u. split; [exact Hu|].
    unfold standing, cache_path. now rewrite Hset, Hfile, Hsize. }
  rewrite Hretry. now exists UnidentifiedImageError.
Qed.

End MaterializerMore.

Lemma download_is_measured_and_saved_witness :
  fetch_image_details (E := two_albums) "http://img/1.jpg" (Some "out/A/a1")
                      true w0 =
  (Ok (Some (mkImageDetail "http://img/1.jpg" (5, 5) 25 (Some "out/A/a1/1.jpg"))),
   mkWorld [("out/A/a1/1.jpg", [Byte.x05; Byte.x05])]
           [EvExists "out/A/a1/1.jpg"; EvGet "http://img/1.jpg" [] 1;
            EvExists "out/A/a1/1.jpg"; EvSaveImage "out/A/a1/1.jpg"]).
Proof.
  refine (download_is_measured_and_saved (E := two_albums) "http://img/1.jpg"
            (Some "out/A/a1") true w0 200 [Byte.x05; Byte.x05]
            [Byte.x05; Byte.x05] (5, 5) _ _ _ _ _ _); try reflexivity.
  - discriminate.
  - now right.
Defined.

Lemma saved_image_is_found_again_witness :
  fst (fetch_image_details (E := two_albums) "http://img/1.jpg"
         (Some "out/A/a1") true
         (snd (fetch_image_details (E := two_albums) "http://img/1.jpg"
                 (Some "out/A/a1") false w0))) =
  Ok (Some (mkImageDetail "http://img/1.jpg" (5, 5) 25 (Some "out/A/a1/1.jpg"))).
Proof.
  rewrite (saved_image_is_found_again (E := two_albums) "http://img/1.jpg"
             (Some "out/A/a1") false w0 200 [Byte.x05; Byte.x05]
             [Byte.x05; Byte.x05] (5, 5) (5, 5));
    try reflexivity.
  now left.
Defined.

Lemma fetch_image_details_result_shape_witness :
  local_path image_1 = cache_path None "http://img/1.jpg".
Proof.
  refine (proj2 (proj2 (proj1 (fetch_image_details_result_shape (E := two_albums)
                                 "http://img/1.jpg" None true w0 _)
                              image_1 _))).
  vm_compute. reflexivity.
Defined.

Lemma find_image_details_result_shape_witness :
  (List.length [image_2; image_1] <= 2)%nat.
Proof.
  refine (proj2 (find_image_details_result_shape (E := two_albums) launch_order
                   ["http://img/1.jpg"; "http://img/2.jpg"] None true w0 _
                   [image_2; image_1] fair_launch_order _)).
  vm_compute. reflexivity.
Defined.

Lemma unreadable_cached_file_fails_the_stage_witness :
  exists e,
    fst (find_image_details (E := two_albums) launch_order
           ["http://img/1.jpg"; "http://img/2.jpg"] (Some "out/A/a1") true
           broken_cache) = Raise e.
Proof.
  refine (unreadable_cached_file_fails_the_stage (E := two_albums) launch_order
            ["http://img/1.jpg"; "http://img/2.jpg"] (Some "out/A/a1")
            broken_cache "http://img/1.jpg" [Byte.x3c] fair_launch_order
            _ _ _ _ _); try reflexivity.
  - vm_compute. repeat constructor; simpl; intuition discriminate.
  - now left.
Defined.

(* ------------------------------------------------------------------ *)
(** ** More on the batch *)

(** X15.  When every entry of [artists_albums] names exactly one album, the
    tasks and the entries line up, and the summary [main] builds is the one
    of the specification: one entry per request that has a winner, in
    request order, each album with the winner of its own pipeline. *)
Theorem summary_is_per_request_for_single_albums (entries : list ArtistAlbums)
    (results : list (option ImageDetail)) :
  (forall entry, In entry entries -> exists album, albums entry = [album]) ->
  aggregate results entries = summary_by_request results entries.
Proof.
  intros Hone. now apply aggregate_one_album_each.
Qed.

Lemma summary_is_per_request_for_single_albums_witness :
  aggregate [Some image_1; Some image_2]
            [mkArtistAlbums "A" ["a1"]; mkArtistAlbums "B" ["b1"]] =
  [mkSummaryEntry "A" "a1" image_1; mkSummaryEntry "B" "b1" image_2].
Proof.
  rewrite (summary_is_per_request_for_single_albums
             [mkArtistAlbums "A" ["a1"]; mkArtistAlbums "B" ["b1"]]
             [Some image_1; Some image_2]).
  - reflexivity.
  - intros entry [<-|[<-|[]]]; eexists; reflexivity.
Defined.

Lemma aggregate_cons (r : option ImageDetail) (results : list (option ImageDetail))
    (entry : ArtistAlbums) (entries : list ArtistAlbums) :
  aggregate (r :: results) (entry :: entries) =
  match r with
  | Some d => map (fun album => mkSummaryEntry (artist_name entry) album d)
                  (albums entry)
  | None => []
  end ++ aggregate results entries.
Proof.
  unfold aggregate. simpl. f_equal.
  destruct r as [d|].
  - induction (albums entry) as [|a l IH]; simpl; [reflexivity|now rewrite IH].
  - induction (albums entry) as [|a l IH]; simpl; [reflexivity|exact IH].
Qed.

(** X16.  The summary [main] builds, for any configuration: an entry names
    an (artist, album) pair of the configuration and carries the winner of
    one of the pipelines; there are no more entries than requests; no
    winner gives no entry; and only the first results, as many as there
    are artist entries, are read. *)
Theorem summary_entries_come_from_requests_and_winners
    (results : list (option ImageDetail)) (entries : list ArtistAlbums) :
  (forall e, In e (aggregate results entries) ->
             In (summary_artist e, summary_album e) (album_requests entries)
             /\ In (Some (highest_resolution_image e)) results)
  /\ (List.length (aggregate results entries)
      <= List.length (album_requests entries))%nat
  /\ ((forall r, In r results -> r = None) -> aggregate results entries = [])
  /\ aggregate results entries =
     aggregate (firstn (List.length entries) results) entries.
Proof.
  split; [|split; [|split]].
  - revert results.
    induction entries as [|entry entries IH]; intros [|r results] e He;
      try contradiction.
    rewrite aggregate_cons in He. apply in_app_or in He as [He|He].
    + destruct r as [d|]; [|contradiction].
      apply in_map_iff in He as (album & <- & Halbum). simpl. split.
      * unfold album_requests. simpl. apply in_or_app. left.
        apply in_map_iff. now exists album.
      * now left.
    + destruct (IH results e He) as [Hreq Hwin]. split.
      * unfold album_requests in *. simpl. apply in_or_app. now right.
      * now right.
  - revert results.
    induction entries as [|entry entries IH]; intros [|r results];
      try (unfold aggregate; simpl; apply Nat.le_0_l).
    rewrite aggregate_cons. unfold album_requests. simpl.
    fold (album_requests entries).
    rewrite !length_app, length_map. specialize (IH results).
    destruct r; simpl; rewrite ?length_map; lia.
  - revert results.
    induction entries as [|entry entries IH]; intros [|r results] Hnone;
      try reflexivity.
    rewrite aggregate_cons, (Hnone r (or_introl eq_refl)).
    apply IH. intros r' Hr'. apply Hnone. now right.
  - revert results.
    induction entries as [|entry entries IH]; intros [|r results];
      try reflexivity.
    simpl firstn. rewrite !aggregate_cons. f_equal. apply IH.
Qed.

Lemma summary_entries_come_from_requests_and_winners_witness :
  aggregate [None; None] [mkArtistAlbums "A" ["a1"; "a2"]] = [].
Proof.
  apply (proj1 (proj2 (proj2 (summary_entries_come_from_requests_and_winners
                                [None; None] [mkArtistAlbums "A" ["a1"; "a2"]])))).
  intros r [<-|[<-|[]]]; reflexivity.
Defined.

Section BatchMore.

Context {E : External}.

(** X17.  [main] on a configuration without artists: no request is made,
    nothing is logged and no summary is written ([artists_albums[0]] is
    never read); nothing happens but the write of the configuration, and
    that only when it is to be saved; without it [main] returns with
    everything as it was. *)
Theorem main_without_artists (scheds : nat -> Schedulers) (config : Config)
    (should_save_config : bool) (w : world) :
  artists_albums config = [] ->
  (exists evs,
      snd (main scheds config should_save_config w) = record w evs
      /\ Forall (fun ev =>
                   ev = EvWriteJson
                          (path_join (output_dir config)
                             ("config_" ++ strftime_now ++ ".json")%string)
                          (DumpConfig config))
                evs
      /\ (should_save_config = false -> evs = []))
  /\ (should_save_config = false ->
      main scheds config should_save_config w = (Ok tt, w)).
Proof.
  intros Hnone. unfold main. rewrite Hnone. simpl.
  unfold bind, gather, ret. simpl.
  destruct should_save_config; simpl.
  - split; [|discriminate]. eexists. split; [reflexivity|].
    split; [now repeat constructor|discriminate].
  - unfold ret. split; [|reflexivity].
    exists []. rewrite record_nil. now repeat split.
Qed.

End BatchMore.

Lemma main_without_artists_witness :
  main (E := two_albums) (fun _ => in_launch_order)
       (mkConfig [] None None false "out" true) false w0 = (Ok tt, w0).
Proof.
  exact (proj2 (main_without_artists (E := two_albums) (fun _ => in_launch_order)
                  (mkConfig [] None None false "out" true) false w0 eq_refl)
               eq_refl).
Defined.

(* ------------------------------------------------------------------ *)
(** ** The interactive configuration *)

Lemma split_on_not_nil (sep : ascii) (s : string) : split_on sep s <> [].
Proof.
  destruct s as [|c rest]; simpl; [discriminate|].
  destruct (Ascii.eqb c sep); [discriminate|].
  destruct (split_on sep rest); discriminate.
Qed.

Lemma split_on_pieces (sep : ascii) (s piece : string) :
  In piece (split_on sep s) -> occurs sep piece = false.
Proof.
  revert piece. induction s as [|c rest IH]; simpl; intros piece Hin.
  - destruct Hin as [<-|[]]. reflexivity.
  - destruct (Ascii.eqb c sep) eqn:Hc.
    + destruct Hin as [<-|Hin]; [reflexivity|]. now apply IH.
    + destruct (split_on sep rest) as [|first pieces] eqn:Hsplit.
      * destruct Hin as [<-|[]]. simpl. now rewrite Hc.
      * destruct Hin as [<-|Hin].
        -- simpl. rewrite Hc. apply IH. now left.
        -- apply IH. now right.
Qed.

Lemma split_on_whole (sep : ascii) (s : string) :
  occurs sep s = false -> split_on sep s = [s].
Proof.
  induction s as [|c rest IH]; simpl; intros Hocc; [reflexivity|].
  apply Bool.orb_false_iff in Hocc as [Hc Hrest].
  rewrite Hc, (IH Hrest). reflexivity.
Qed.

Lemma split_on_first (sep : ascii) (s rest : string) :
  occurs sep s = false ->
  split_on sep (s ++ String sep rest)%string = s :: split_on sep rest.
Proof.
  induction s as [|c s' IH]; simpl; intros Hocc.
  - now rewrite Ascii.eqb_refl.
  - apply Bool.orb_false_iff in Hocc as [Hc Hs'].
    rewrite Hc, (IH Hs'). reflexivity.
Qed.

Lemma lstrip_occurs (drop : ascii -> bool) (c : ascii) (s : string) :
  occurs c s = false -> occurs c (lstrip drop s) = false.
Proof.
  induction s as [|c' rest IH]; simpl; intros Hocc; [reflexivity|].
  apply Bool.orb_false_iff in Hocc as [Hc Hrest].
  destruct (drop c'); [now apply IH|]. simpl. now rewrite Hc, Hrest.
Qed.

Lemma rstrip_occurs (drop : ascii -> bool) (c : ascii) (s : string) :
  occurs c s = false -> occurs c (rstrip drop s) = false.
Proof.
  induction s as [|c' rest IH]; simpl; intros Hocc; [reflexivity|].
  apply Bool.orb_false_iff in Hocc as [Hc Hrest].
  specialize (IH Hrest).
  destruct (rstrip drop rest) as [|k kept].
  - destruct (drop c'); simpl; [reflexivity|]. now rewrite Hc.
  - cbn [occurs] in IH |- *. now rewrite Hc, IH.
Qed.

Lemma lstrip_starts (drop : ascii -> bool) (s : string) :
  starts_with drop (lstrip drop s) = false.
Proof.
  induction s as [|c rest IH]; simpl; [reflexivity|].
  destruct (drop c) eqn:Hc; [exact IH|]. exact Hc.
Qed.

Lemma rstrip_ends (drop : ascii -> bool) (s : string) :
  ends_with drop (rstrip drop s) = false.
Proof.
  induction s as [|c rest IH]; simpl; [reflexivity|].
  destruct (rstrip drop rest) as [|k kept].
  - destruct (drop c) eqn:Hc; simpl; [reflexivity|exact Hc].
  - exact IH.
Qed.

Lemma rstrip_starts (drop : ascii -> bool) (s : string) :
  starts_with drop s = false -> starts_with drop (rstrip drop s) = false.
Proof.
  destruct s as [|c rest]; simpl; intros Hc; [reflexivity|].
  destruct (rstrip drop rest); [rewrite Hc|]; exact Hc.
Qed.

Lemma lstrip_unchanged (drop : ascii -> bool) (s : string) :
  starts_with drop s = false -> lstrip drop s = s.
Proof. destruct s as [|c rest]; simpl; intros Hc; [|rewrite Hc]; reflexivity. Qed.

Lemma rstrip_unchanged (drop : ascii -> bool) (s : string) :
  ends_with drop s = false -> rstrip drop s = s.
Proof.
  induction s as [|c rest IH]; simpl; intros Hend; [reflexivity|].
  destruct rest as [|c' rest'].
  - simpl. now rewrite Hend.
  - rewrite (IH Hend). reflexivity.
Qed.

Lemma plain_name_unchanged (name : string) :
  plain_name name ->
  nonempty name = true /\ strip_quotes (strip name) = name.
Proof.
  intros (_ & Hne & _ & Hs1 & Hs2 & Hq1 & Hq2). split.
  - unfold nonempty. destruct (String.eqb_spec name ""); [contradiction|reflexivity].
  - unfold strip, strip_quotes.
    rewrite (lstrip_unchanged _ _ Hs1), (rstrip_unchanged _ _ Hs2).
    rewrite (lstrip_unchanged _ _ Hq1), (rstrip_unchanged _ _ Hq2). reflexivity.
Qed.

Lemma blank_no_comma (s : string) : blank s = true -> occurs comma s = false.
Proof.
  induction s as [|c rest IH]; simpl; intros Hb; [reflexivity|].
  apply andb_prop in Hb as [Hc Hrest]. rewrite (IH Hrest), Bool.orb_false_r.
  destruct (Ascii.eqb_spec c comma) as [->|]; [discriminate Hc|reflexivity].
Qed.

Lemma strip_blank (s : string) : blank s = true -> strip s = "".
Proof.
  unfold strip. induction s as [|c rest IH]; simpl; intros Hb; [reflexivity|].
  apply andb_prop in Hb as [Hc Hrest]. rewrite Hc. now apply IH.
Qed.

Lemma parse_albums_joined (names : list string) :
  Forall plain_name names -> parse_albums (comma_joined names) = names.
Proof.
  unfold parse_albums. induction 1 as [|name rest Hname Hrest IH]; [reflexivity|].
  destruct (plain_name_unchanged name Hname) as [Hne Hstrip].
  assert (Hcomma : occurs comma name = false) by apply Hname.
  destruct rest as [|name' rest'].
  - change (comma_joined [name]) with name.
    rewrite (split_on_whole _ _ Hcomma). cbn [filter]. rewrite Hne.
    cbn [map]. now rewrite Hstrip.
  - change (comma_joined (name :: name' :: rest'))
      with (name ++ String comma (comma_joined (name' :: rest')))%string.
    rewrite (split_on_first _ _ _ Hcomma). cbn [filter map].
    rewrite Hne. cbn [map]. now rewrite Hstrip, IH.
Qed.

Lemma read_artists_typed (entries : list ArtistAlbums) (rest : list string) :
  Forall (fun entry => artist_name entry <> "" /\ Forall plain_name (albums entry))
         entries ->
  read_artists (typed entries ++ "" :: rest) = Some entries.
Proof.
  induction 1 as [|[artist names] entries' [Hartist Hnames] _ IH]; [reflexivity|].
  simpl in Hartist, Hnames. unfold typed in *. cbn [flat_map app read_artists].
  cbn [artist_name albums].
  unfold nonempty at 1. destruct (String.eqb_spec artist ""); [contradiction|].
  cbn [negb]. rewrite IH, (parse_albums_joined _ Hnames). reflexivity.
Qed.

(** X18.  No album name read from the albums answer contains a comma, and
    none starts or ends with a double quote: the answer is cut at every
    comma, also at one between double quotes, and the quotes at the ends
    of each piece are dropped. *)
Theorem parse_albums_cuts_at_every_comma (albums_input : string) :
  Forall (fun name =>
            occurs comma name = false
            /\ starts_with is_quote name = false
            /\ ends_with is_quote name = false)
         (parse_albums albums_input).
Proof.
  apply Forall_forall. intros name Hin. unfold parse_albums in Hin.
  apply in_map_iff in Hin as (piece & <- & Hpiece).
  apply filter_In in Hpiece as [Hpiece _].
  apply split_on_pieces in Hpiece. unfold strip_quotes, strip. repeat split.
  - now repeat (apply rstrip_occurs || apply lstrip_occurs).
  - apply rstrip_starts, lstrip_starts.
  - apply rstrip_ends.
Qed.

(** X19.  Album names in ASCII that are not empty, hold no comma and have
    neither white space nor a double quote at either end are read back as
    they are from the answer that joins them with commas. *)
Theorem parse_albums_reads_joined_names (names : list string) :
  Forall plain_name names -> parse_albums (comma_joined names) = names.
Proof. exact (parse_albums_joined names). Qed.

(** X20.  An albums answer of white space only (and not empty) gives one
    album, with the empty name: the empty pieces are left out before the
    white space is stripped, not after. *)
Theorem blank_albums_answer_gives_empty_name (albums_input : string) :
  blank albums_input = true -> albums_input <> "" ->
  parse_albums albums_input = [""].
Proof.
  intros Hblank Hne. unfold parse_albums.
  rewrite (split_on_whole _ _ (blank_no_comma _ Hblank)). simpl.
  unfold nonempty. destruct (String.eqb_spec albums_input ""); [contradiction|].
  simpl. now rewrite (strip_blank _ Hblank).
Qed.

(** X21.  Typing the artists one after the other, each followed by its
    album names joined by commas, and then an empty artist, gives a
    configuration with exactly these artists and albums, whatever the
    first five answers were and whatever is typed afterwards; the artist
    names must not be empty and the album names must need no cleaning
    (ASCII text without comma, not empty, without white space or double
    quote at either end). *)
Theorem interactive_config_reads_typed_artists
    (release_type status save_images_input out_dir skip_existing_input : string)
    (entries : list ArtistAlbums) (rest : list string) :
  Forall (fun entry => artist_name entry <> "" /\ Forall plain_name (albums entry))
         entries ->
  exists config,
    interactive_config
      (release_type :: status :: save_images_input :: out_dir
       :: skip_existing_input :: typed entries ++ "" :: rest) = Some config
    /\ artists_albums config = entries.
Proof.
  intros Hentries. unfold interactive_config.
  rewrite (read_artists_typed entries rest Hentries).
  eexists. split; reflexivity.
Qed.

(** X22.  Answers of white space only (or empty) to the questions for the
    release type, the status and the output directory, with the answers
    [no] and [yes] offered for the two yes/no questions left as they are,
    give the configuration of the defaults: no release group and no
    release is filtered out, no image is saved, the output directory is
    the current one and existing images are skipped. *)
Theorem blank_answers_give_the_defaults
    (release_type status out_dir : string) (answers : list string)
    (config : Config) :
  blank release_type = true -> blank status = true -> blank out_dir = true ->
  interactive_config
    (release_type :: status :: "no" :: out_dir :: "yes" :: answers) = Some config ->
  (forall rgs, filter_release_type (cfg_release_type config) rgs = rgs)
  /\ (forall rgs,
        release_ids_of (cfg_status config) rgs =
        flat_map (fun rg => map release_id (get (releases rg) [])) rgs)
  /\ save_images config = false
  /\ output_dir config = "."
  /\ cfg_skip_existing config = true.
Proof.
  intros Hrt Hst Hod Hconfig. unfold interactive_config in Hconfig.
  destruct (read_artists answers) as [artists|]; [|discriminate].
  injection Hconfig as <-. cbn [cfg_release_type cfg_status save_images
                                  output_dir cfg_skip_existing].
  rewrite (strip_blank _ Hrt), (strip_blank _ Hst), (strip_blank _ Hod).
  assert (Hrt' : truthy (if nonempty release_type then Some "" else None) = false)
    by (destruct (nonempty release_type); reflexivity).
  assert (Hst' : truthy (if nonempty status then Some "" else None) = false)
    by (destruct (nonempty status); reflexivity).
  repeat split.
  - intros rgs. unfold filter_release_type. now rewrite Hrt'.
  - intros rgs. unfold release_ids_of. rewrite Hst'. cbn [negb orb].
    induction rgs as [|rg rgs IH]; [reflexivity|]. cbn [flat_map].
    rewrite IH. f_equal.
Qed.

Lemma parse_albums_reads_joined_names_witness :
  parse_albums "Geogaddi,Music Has the Right to Children" =
  ["Geogaddi"; "Music Has the Right to Children"].
Proof.
  apply (parse_albums_reads_joined_names
           ["Geogaddi"; "Music Has the Right to Children"]).
  repeat constructor; discriminate.
Defined.

Lemma blank_albums_answer_gives_empty_name_witness : parse_albums "  " = [""].
Proof.
  apply (blank_albums_answer_gives_empty_name "  "); [reflexivity|discriminate].
Defined.

Lemma interactive_config_reads_typed_artists_witness :
  exists config,
    interactive_config
      ["Album"; "Official"; "yes"; "covers"; "no";
       "Boards of Canada"; "Geogaddi,Twoism"; "Autechre"; "Amber"; "";
       "left over"] = Some config
    /\ artists_albums config =
       [mkArtistAlbums "Boards of Canada" ["Geogaddi"; "Twoism"];
        mkArtistAlbums "Autechre" ["Amber"]].
Proof.
  apply (interactive_config_reads_typed_artists
           "Album" "Official" "yes" "covers" "no"
           [mkArtistAlbums "Boards of Canada" ["Geogaddi"; "Twoism"];
            mkArtistAlbums "Autechre" ["Amber"]] ["left over"]).
  repeat constructor; discriminate.
Defined.

Lemma blank_answers_give_the_defaults_witness :
  save_images (mkConfig [] (Some "") None false "." true) = false
  /\ output_dir (mkConfig [] (Some "") None false "." true) = ".".
Proof.
  refine (let H := blank_answers_give_the_defaults " " "" "  " [""]
                     (mkConfig [] (Some "") None false "." true)
                     eq_refl eq_refl eq_refl eq_refl in
          conj (proj1 (proj2 (proj2 H))) (proj1 (proj2 (proj2 (proj2 H))))).
Defined.
